(** * sandwich: the proxy distribution simulation

    A shallow embedding of [simulation/simulate_sandwich.py]: the
    Distributor (assignment by the power of two choices, the panic mode,
    block notification), the Censor (enumeration, the blocking loop), the
    client arrival process, and the run as a transition system over the
    state that these share.

    The collaborators that live outside the file are kept at their
    interface: the random module is a tape of raw draws, the scheduler is
    the clock and the list of the processes started, and a Proxy object
    is its identity together with its queue in the store. *)

From Stdlib Require Import List Arith PeanoNat Bool Lia ZArith QArith Qabs Lqa Sorted.
From Stdlib Require Import Floats.PrimFloat Floats.SpecFloat Floats.FloatOps.
From Stdlib Require Import Numbers.Cyclic.Int63.Uint63.
Import ListNotations.

Close Scope Q_scope.
Open Scope nat_scope.

Set Implicit Arguments.

(** ** Values *)

(** A Proxy object is referred to by identity; [Proxy i] of the bootstrap
    loop has identity [i]. *)
Definition proxy := nat.

(** [util.Client(name, malicious)]; the name is ['Client %d' % counter],
    kept as the counter. *)
Record Client := mkClient { c_name : nat; c_malicious : bool }.

(** The six literals that the code gives to [action]. *)
Inductive action :=
| ENUMERATE_PROXY | MISS_ENUMERATE_PROXY | EXPOSE_CLIENT
| PROXY_BLOCK | MISS_PROXY_BLOCK | PROXY_DEATH.

Definition action_eqb (a b : action) : bool :=
  match a, b with
  | ENUMERATE_PROXY, ENUMERATE_PROXY
  | MISS_ENUMERATE_PROXY, MISS_ENUMERATE_PROXY
  | EXPOSE_CLIENT, EXPOSE_CLIENT
  | PROXY_BLOCK, PROXY_BLOCK
  | MISS_PROXY_BLOCK, MISS_PROXY_BLOCK
  | PROXY_DEATH, PROXY_DEATH => true
  | _, _ => false
  end.

(** A Python number as [system_health] holds it: the int literal [0], or
    the float that the true division produces. *)
Inductive number := PyInt (z : Z) | PyFloat (f : float).

Definition float_of_len (n : nat) : float :=
  PrimFloat.of_uint63 (Uint63.of_Z (Z.of_nat n)).

(** [(1-len(self.blocked)/(len(self.proxies)+len(self.blocked))) * 100]:
    a true division of two ints, then float arithmetic in binary64.  Both
    places that evaluate it have a positive denominator. *)
Definition health (n_proxies n_blocked : nat) : float :=
  ((1 - float_of_len n_blocked / float_of_len (n_proxies + n_blocked)) * 100)%float.

(** The number a float stands for, read off its sign, mantissa and
    exponent; none for an infinity or a NaN. *)
Definition float_value (f : float) : option Q :=
  match Prim2SF f with
  | S754_zero _ => Some 0%Q
  | S754_finite s m e =>
      Some ((if s then -1 else 1) * inject_Z (Zpos m) * Qpower 2 e)%Q
  | _ => None
  end.

(** Modelled from the spec: [util.create_event] and the Event it builds,
    of core/util.py; the record of section 3, with the two proxy lists
    taken as they are at the call. *)
Record Event := create_event {
  time : Q;
  act : action;
  active_proxy_ids : list proxy;
  blocked_proxy_ids : list proxy;
  subject_proxy : proxy;
  system_health : number
}.

(** ** The random module

    [random.seed(seed)] fixes the stream; the stream is a tape of raw
    draws and a position.  Each call of [randint], [choice] and
    [expovariate] reads one cell. *)
Record rng := mkRng { tape : nat -> nat; pos : nat }.

Definition draw (g : rng) : nat * rng :=
  (tape g (pos g), mkRng (tape g) (S (pos g))).

Definition skip (k : nat) (g : rng) : rng := mkRng (tape g) (k + pos g).

(** ** Lists as Python uses them *)

(** [x in l] *)
Definition contains (x : proxy) (l : list proxy) : bool := existsb (Nat.eqb x) l.

(** [l.remove(x)]: the first occurrence goes; [None] is the ValueError. *)
Fixpoint list_remove (x : proxy) (l : list proxy) : option (list proxy) :=
  match l with
  | [] => None
  | y :: l' =>
      if Nat.eqb x y then Some l'
      else match list_remove x l' with
           | Some r => Some (y :: r)
           | None => None
           end
  end.

(** [sorted(l, key=key, reverse=True)]: descending and stable, equal keys
    keep their order. *)
Fixpoint insert_desc (key : proxy -> nat) (x : proxy) (l : list proxy) : list proxy :=
  match l with
  | [] => [x]
  | y :: l' => if key x <? key y then y :: insert_desc key x l' else x :: y :: l'
  end.

Definition sorted_desc (key : proxy -> nat) (l : list proxy) : list proxy :=
  fold_right (insert_desc key) [] l.

(** ** The shared state *)

Module Distributor.
Record t := mk {
  proxies : list proxy;
  blocked : list proxy;
  events : list Event
}.
End Distributor.

Module Censor.
Record t := mk {
  proxies : list proxy;
  blocked : list proxy;
  events : list Event;
  bootstrap : Q
}.
End Censor.

(** Everything a call can read or write: the clock [env.now], the random
    stream, the module global [panic_level], the two actors, the queue
    and the blocked flag of every Proxy object, and the processes handed
    to [env.process], in the order of the calls. *)
Record world := mkWorld {
  env_now : Q;
  random : rng;
  panic_level : nat;
  distributor : Distributor.t;
  censor : Censor.t;
  queue : proxy -> list Client;
  flag : proxy -> bool;
  env_processes : list (proxy * Client)
}.

Definition set_random (g : rng) (w : world) : world :=
  mkWorld (env_now w) g (panic_level w) (distributor w) (censor w)
          (queue w) (flag w) (env_processes w).

Definition set_panic_level (n : nat) (w : world) : world :=
  mkWorld (env_now w) (random w) n (distributor w) (censor w)
          (queue w) (flag w) (env_processes w).

Definition set_distributor (d : Distributor.t) (w : world) : world :=
  mkWorld (env_now w) (random w) (panic_level w) d (censor w)
          (queue w) (flag w) (env_processes w).

Definition set_censor (c : Censor.t) (w : world) : world :=
  mkWorld (env_now w) (random w) (panic_level w) (distributor w) c
          (queue w) (flag w) (env_processes w).

Definition set_flag (f : proxy -> bool) (w : world) : world :=
  mkWorld (env_now w) (random w) (panic_level w) (distributor w) (censor w)
          (queue w) f (env_processes w).

Definition set_env_processes (l : list (proxy * Client)) (w : world) : world :=
  mkWorld (env_now w) (random w) (panic_level w) (distributor w) (censor w)
          (queue w) (flag w) l.

(** ** Calls: state and exceptions

    A call ends by returning, by [env.exit()], which raises in the
    running process, or by a Python error.  What it wrote before it
    raised stays written. *)
Inductive exn := ValueError | IndexError | ZeroDivisionError.

Inductive result (A : Type) :=
| Return (a : A)
| Exit
| Raise (e : exn).
Arguments Exit {A}.
Arguments Raise {A} e.

Definition M (A : Type) : Type := world -> result A * world.

Definition ret {A} (a : A) : M A := fun w => (Return a, w).

Definition bind {A B} (m : M A) (k : A -> M B) : M B :=
  fun w =>
    match m w with
    | (Return a, w') => k a w'
    | (Exit, w') => (Exit, w')
    | (Raise e, w') => (Raise e, w')
    end.

Notation "x <- m ;; k" := (bind m (fun x => k))
  (at level 61, m at next level, right associativity).
Notation "m ;;; k" := (bind m (fun _ => k))
  (at level 61, right associativity).

Definition gets {A} (f : world -> A) : M A := fun w => (Return (f w), w).
Definition modify (f : world -> world) : M unit := fun w => (Return tt, f w).
Definition raise {A} (e : exn) : M A := fun w => (Raise e, w).

(** [self.env.exit()] *)
Definition env_exit {A} : M A := fun w => (Exit, w).

(** [self.env.process(p.service(client))] *)
Definition env_process (p : proxy) (c : Client) : M unit :=
  modify (fun w => set_env_processes (env_processes w ++ [(p, c)]) w).

(** [random.randint(a, b)]: an index in [a..b], ValueError on an empty
    range. *)
Definition randint (a b : nat) : M nat :=
  if b <? a then raise ValueError
  else fun w =>
    let (r, g) := draw (random w) in
    (Return (a + r mod (b - a + 1)), set_random g w).

(** [random.choice([True, False])]: the element at a drawn index. *)
Definition choice_bool : M bool :=
  i <- randint 0 1 ;; ret (Nat.eqb i 0).

(** [a / b] on numbers, as in [1.0 / interval]: ZeroDivisionError on a
    zero divisor.  Delays and rates are exact rationals. *)
Definition true_div (a b : Q) : M Q :=
  if Qeq_bool b 0 then raise ZeroDivisionError else ret (a / b)%Q.

(** The sample [-log(1.0 - random())] that a cell of the tape stands
    for: a number that is not negative, given in sixteenths. *)
Definition unit_sample (r : nat) : Q := (Z.of_nat r # 16)%Q.

(** [random.expovariate(lambd)]: one draw, then the sample divided by
    [lambd]. *)
Definition expovariate (lambd : Q) : M Q :=
  fun w =>
    let (r, g) := draw (random w) in
    if Qeq_bool lambd 0 then (Raise ZeroDivisionError, set_random g w)
    else (Return (unit_sample r / lambd)%Q, set_random g w).

(** [env.timeout(delay)]: ValueError on a negative delay.  How long the
    process then sleeps is left to the run. *)
Definition env_timeout (delay : Q) : M unit :=
  if Qle_bool 0 delay then ret tt else raise ValueError.

(** [t = random.expovariate(1.0 / interval)] and [yield env.timeout(t)],
    the two lines that end a turn of either loop. *)
Definition sleep (interval : Q) : M unit :=
  lambd <- true_div 1 interval ;;
  t <- expovariate lambd ;;
  env_timeout t.

(** [blocking_rate = 1.0] *)
Definition blocking_rate : Q := 1%Q.

(** [l[i]] for an index that is not negative. *)
Definition getitem (l : list proxy) (i : nat) : M proxy :=
  match nth_error l i with
  | Some p => ret p
  | None => raise IndexError
  end.

(** ** The Distributor *)

Section Simulation.

(** [util.VICTIM_SET], of core/util.py: the divisor of the victim set, a
    whole number. *)
Variable VICTIM_SET : nat.

Definition upd_distributor (f : Distributor.t -> Distributor.t) : M unit :=
  modify (fun w => set_distributor (f (distributor w)) w).

Definition upd_censor (f : Censor.t -> Censor.t) : M unit :=
  modify (fun w => set_censor (f (censor w)) w).

(** [Distributor.add_event] *)
Definition add_event (e : Event) : M unit :=
  upd_distributor (fun d =>
    Distributor.mk (Distributor.proxies d) (Distributor.blocked d)
                   (Distributor.events d ++ [e])).

(** [(int)(len(self.proxies)/util.VICTIM_SET)] *)
Definition victim_size_of (n : nat) : M nat :=
  if VICTIM_SET =? 0 then raise ZeroDivisionError else ret (n / VICTIM_SET).

(** [Distributor.assign] *)
Definition assign (client : Client) : M proxy :=
  assigned <- gets env_now ;;
  self <- gets distributor ;;
  let proxies := Distributor.proxies self in
  (if length proxies =? 0 then env_exit else ret tt) ;;;
  random_index_1 <- randint 0 (length proxies - 1) ;;
  random_index_2 <- randint 0 (length proxies - 1) ;;
  random_proxy_1 <- getitem proxies random_index_1 ;;
  random_proxy_2 <- getitem proxies random_index_2 ;;
  level <- gets panic_level ;;
  q <- gets queue ;;
  if 0 <? level then
    let sorted_proxies := sorted_desc (fun p => length (q p)) proxies in
    victim_size <- victim_size_of (length proxies) ;;
    if 0 <? victim_size then
      random_index_1 <- randint 0 (victim_size - 1) ;;
      random_proxy_1 <- getitem proxies random_index_1 ;;
      env_process random_proxy_1 client ;;;
      ret random_proxy_1
    else
      getitem proxies 0
  else
    if length (q random_proxy_2) <? length (q random_proxy_1) then
      env_process random_proxy_2 client ;;;
      ret random_proxy_2
    else
      env_process random_proxy_1 client ;;;
      ret random_proxy_1.

(** [self.blocked.append(proxy)] and [self.proxies.remove(proxy)] *)
Definition blocked_append (p : proxy) : M unit :=
  upd_distributor (fun d =>
    Distributor.mk (Distributor.proxies d) (Distributor.blocked d ++ [p])
                   (Distributor.events d)).

Definition proxies_remove (p : proxy) : M unit :=
  self <- gets distributor ;;
  match list_remove p (Distributor.proxies self) with
  | Some l =>
      upd_distributor (fun d =>
        Distributor.mk l (Distributor.blocked d) (Distributor.events d))
  | None => raise ValueError
  end.

Definition current_health : M number :=
  self <- gets distributor ;;
  ret (PyFloat (health (length (Distributor.proxies self))
                       (length (Distributor.blocked self)))).

(** [Distributor.notify_block] *)
Definition notify_block (p : proxy) : M unit :=
  time <- gets env_now ;;
  let system_health := PyInt 0 in
  self <- gets distributor ;;
  decided <-
    (if contains p (Distributor.blocked self) then
       system_health <- current_health ;;
       ret (MISS_PROXY_BLOCK, system_health)
     else
       blocked_append p ;;;
       proxies_remove p ;;;
       self <- gets distributor ;;
       if length (Distributor.proxies self) =? 0 then
         ret (PROXY_DEATH, system_health)
       else
         system_health <- current_health ;;
         (if length (Distributor.proxies self) <? length (Distributor.blocked self)
          then modify (fun w => set_panic_level (panic_level w + 1) w)
          else ret tt) ;;;
         ret (PROXY_BLOCK, system_health)) ;;
  let (action, system_health) := decided : action * number in
  self <- gets distributor ;;
  add_event (create_event time action (Distributor.proxies self)
                          (Distributor.blocked self) p system_health) ;;;
  if action_eqb action PROXY_DEATH then env_exit else ret tt.

(** ** The Censor *)

(** [Censor.enumerate] *)
Definition enumerate (p : proxy) : M unit :=
  time <- gets env_now ;;
  let system_health := PyInt 0 in
  self <- gets censor ;;
  action <-
    (if negb (contains p (Censor.proxies self)) && negb (contains p (Censor.blocked self))
     then
       upd_censor (fun c =>
         Censor.mk (Censor.proxies c ++ [p]) (Censor.blocked c)
                   (Censor.events c) (Censor.bootstrap c)) ;;;
       ret ENUMERATE_PROXY
     else ret MISS_ENUMERATE_PROXY) ;;
  self <- gets censor ;;
  upd_censor (fun c =>
    Censor.mk (Censor.proxies c) (Censor.blocked c)
              (Censor.events c ++
                 [create_event time action (Censor.proxies self)
                               (Censor.blocked self) p system_health])
              (Censor.bootstrap c)).

(** Modelled from the spec: [Proxy.block], of core/util.py; section 4.6
    has the block transition of the proxy and the notification of the
    Distributor through [notify_block]. *)
Definition proxy_block (p : proxy) : M unit :=
  modify (fun w => set_flag (fun x => if Nat.eqb x p then true else flag w x) w) ;;;
  notify_block p.

(** One turn of the loop of [Censor._block], from the test of the list
    to the [yield]. *)
Definition block_turn : M unit :=
  self <- gets censor ;;
  (if 0 <? length (Censor.proxies self) then
     q <- gets queue ;;
     upd_censor (fun c =>
       Censor.mk (sorted_desc (fun p => length (q p)) (Censor.proxies c))
                 (Censor.blocked c) (Censor.events c) (Censor.bootstrap c)) ;;;
     self <- gets censor ;;
     block_proxy <- getitem (Censor.proxies self) 0 ;;
     proxy_block block_proxy ;;;
     upd_censor (fun c =>
       Censor.mk (Censor.proxies c) (Censor.blocked c ++ [block_proxy])
                 (Censor.events c) (Censor.bootstrap c)) ;;;
     self <- gets censor ;;
     match list_remove block_proxy (Censor.proxies self) with
     | Some l =>
         upd_censor (fun c =>
           Censor.mk l (Censor.blocked c) (Censor.events c) (Censor.bootstrap c))
     | None => raise ValueError
     end
   else ret tt) ;;;
  sleep blocking_rate.


(** ** Client arrival *)

(** [client_arrival] *)
Definition client_arrival (name : nat) : M unit :=
  arrival <- gets env_now ;;
  malicious <- choice_bool ;;
  let client := mkClient name malicious in
  p <- assign client ;;
  if malicious then enumerate p
  else
    cen <- gets censor ;;
    if contains p (Censor.proxies cen) then
      d <- gets distributor ;;
      add_event (create_event arrival EXPOSE_CLIENT (Distributor.proxies d)
                              (Distributor.blocked d) p (PyInt 0))
    else ret tt.

(** One turn of the loop of [generate_clients], from the test of
    [len(distributor.proxies) > 0] to the [yield]; [None] when the test
    fails and the generator returns. *)
Definition arrival_turn (interval : Q) (counter : nat)
  : world -> option (result unit * world) :=
  fun w =>
    if 0 <? length (Distributor.proxies (distributor w)) then
      Some ((client_arrival counter ;;; sleep interval) w)
    else None.

End Simulation.

(** ** The run

    The scheduler runs one process at a time, from one [yield] to the
    next, on a clock that never goes back.  The state of a run is the
    shared state together with the two processes of the file: the
    generator of clients with its interval and its counter, and the
    blocking loop of the censor. *)
Record sim := mkSim {
  world_of : world;
  interval : Q;
  counter : nat;
  clients_running : bool;
  censor_running : bool
}.

(** [Distributor._bootstrap]: the loop appends [Proxy i] for [i] in
    [range(num_proxies)]. *)
Definition bootstrap_proxies (num_proxies : nat) : list proxy :=
  fold_left (fun proxies i => proxies ++ [i]) (seq 0 num_proxies) [].

(** The state that [run] builds before [env.run()]: [panic_level = 0],
    the seeded stream, the clock at zero, the Distributor with its fresh
    proxies and the Censor, each with lists of its own. *)
Definition start (seed : nat -> nat) (client_arrival_rate : Q) (num_proxies : nat)
           (censor_bootstrap : Q) : sim :=
  mkSim
    (mkWorld 0%Q (mkRng seed 0) 0
             (Distributor.mk (bootstrap_proxies num_proxies) [] [])
             (Censor.mk [] [] [] censor_bootstrap)
             (fun _ => []) (fun _ => false) [])
    client_arrival_rate 0 true true.

Definition set_world (w : world) (s : sim) : sim :=
  mkSim w (interval s) (counter s) (clients_running s) (censor_running s).

(** The clock moves on by a delay that is not negative. *)
Definition advance_clock (d : Q) (w : world) : world :=
  mkWorld (env_now w + d)%Q (random w) (panic_level w) (distributor w) (censor w)
          (queue w) (flag w) (env_processes w).

(** Modelled from the spec: [Proxy.service], of core/util.py; the spec
    keeps the service of a proxy inside the proxy: it changes queues and
    draws service times. *)
Definition service_effect (q : proxy -> list Client) (k : nat) (w : world) : world :=
  mkWorld (env_now w) (skip k (random w)) (panic_level w) (distributor w) (censor w)
          q (flag w) (env_processes w).

(** How a process goes on after a turn: it yields and stays, [env.exit()]
    ends it, and an error leaves the scheduler and ends the run. *)
Definition after_arrival (s : sim) (out : result unit * world) : sim :=
  match fst out with
  | Return _ => mkSim (snd out) (interval s) (S (counter s)) true (censor_running s)
  | Exit => mkSim (snd out) (interval s) (counter s) false (censor_running s)
  | Raise _ => mkSim (snd out) (interval s) (counter s) false false
  end.

Definition after_block (s : sim) (out : result unit * world) : sim :=
  match fst out with
  | Return _ => mkSim (snd out) (interval s) (counter s) (clients_running s) true
  | Exit => mkSim (snd out) (interval s) (counter s) (clients_running s) false
  | Raise _ => mkSim (snd out) (interval s) (counter s) false false
  end.

Inductive step (VICTIM_SET : nat) : sim -> sim -> Prop :=
| step_clock s d :
    (0 <= d)%Q ->
    step VICTIM_SET s (set_world (advance_clock d (world_of s)) s)
| step_service s q k :
    step VICTIM_SET s (set_world (service_effect q k (world_of s)) s)
| step_arrival s out :
    clients_running s = true ->
    arrival_turn VICTIM_SET (interval s) (counter s) (world_of s) = Some out ->
    step VICTIM_SET s (after_arrival s out)
| step_arrival_end s :
    clients_running s = true ->
    arrival_turn VICTIM_SET (interval s) (counter s) (world_of s) = None ->
    step VICTIM_SET s
         (mkSim (world_of s) (interval s) (counter s) false (censor_running s))
| step_block s :
    censor_running s = true ->
    (Censor.bootstrap (censor (world_of s)) <= env_now (world_of s))%Q ->
    step VICTIM_SET s (after_block s (block_turn (world_of s))).

Inductive steps (VICTIM_SET : nat) : sim -> sim -> Prop :=
| steps_refl s : steps VICTIM_SET s s
| steps_step s1 s2 s3 :
    steps VICTIM_SET s1 s2 -> step VICTIM_SET s2 s3 -> steps VICTIM_SET s1 s3.

Definition reachable (VICTIM_SET : nat) (seed : nat -> nat) (client_arrival_rate : Q)
           (num_proxies : nat) (censor_bootstrap : Q) (s : sim) : Prop :=
  steps VICTIM_SET (start seed client_arrival_rate num_proxies censor_bootstrap) s.

(** [run] returns [distributor.events + censor.events]. *)
Definition run_result (s : sim) : list Event :=
  Distributor.events (distributor (world_of s)) ++ Censor.events (censor (world_of s)).

(** ** What the claims speak of *)

Definition queue_length (w : world) (p : proxy) : nat := length (queue w p).

(** The [k] most loaded of a list, in the order of the descending sort. *)
Definition top_loaded (w : world) (k : nat) (l : list proxy) : list proxy :=
  firstn k (sorted_desc (queue_length w) l).

(** A proxy of the list with no longer queue in the list. *)
Definition most_loaded (w : world) (l : list proxy) (p : proxy) : Prop :=
  In p l /\ forall x, In x l -> queue_length w x <= queue_length w p.

(** The health as section 4.3 writes it, over the rationals:
    (1 - |blocked| / (|active| + |blocked|)) x 100. *)
Definition q_of_len (n : nat) : Q := inject_Z (Z.of_nat n).

Definition health_formula (n_active n_blocked : nat) : Q :=
  ((1 - q_of_len n_blocked / q_of_len (n_active + n_blocked)) * 100)%Q.

(** The float of the code is the formula up to the rounding of binary64:
    within [health_tolerance], a part in a million of a millionth. *)
Definition health_tolerance : Q := (1 # 1000000000000)%Q.

Definition health_close (n_active n_blocked : nat) : bool :=
  match float_value (health n_active n_blocked) with
  | Some q => Qle_bool (Qabs (q - health_formula n_active n_blocked)) health_tolerance
  | None => false
  end.

(** The sizes for which the rounding has been checked by evaluation. *)
Definition health_checked : nat := 128.

Definition time_ordered (l : list Event) : Prop :=
  StronglySorted (fun e1 e2 => (time e1 <= time e2)%Q) l.

Definition count_action (a : action) (l : list Event) : nat :=
  length (filter (fun e => action_eqb (act e) a) l).

(** A world for experiments: given active and blocked lists, queue
    lengths, a panic level and a stream. *)
Definition clients_of (n : nat) : list Client := repeat (mkClient 0 false) n.

Definition world_with (active blocked : list proxy) (qlen : proxy -> nat)
           (level : nat) (draws : nat -> nat) : world :=
  mkWorld 0%Q (mkRng draws 0) level
          (Distributor.mk active blocked [])
          (Censor.mk [] [] [] 0%Q)
          (fun p => clients_of (qlen p)) (fun _ => false) [].

(** * The vocabulary of the properties *)

Unset Implicit Arguments.

(** The two draws that open every call of [assign] on a list that is not
    empty, and the two proxies at the drawn indices. *)
Definition first_index (w : world) : nat :=
  tape (random w) (pos (random w)) mod length (Distributor.proxies (distributor w)).

Definition second_index (w : world) : nat :=
  tape (random w) (S (pos (random w))) mod length (Distributor.proxies (distributor w)).

Definition first_drawn (w : world) : proxy :=
  nth (first_index w) (Distributor.proxies (distributor w)) 0.

Definition second_drawn (w : world) : proxy :=
  nth (second_index w) (Distributor.proxies (distributor w)) 0.

(** The proxy that the default branch takes. *)
Definition shorter_of_two (w : world) : proxy :=
  if queue_length w (second_drawn w) <? queue_length w (first_drawn w)
  then second_drawn w else first_drawn w.

(** The state after [k] draws and the start of the service of [p]. *)
Definition served (k : nat) (p : proxy) (c : Client) (w : world) : world :=
  set_env_processes (env_processes w ++ [(p, c)]) (set_random (skip k (random w)) w).

(** The third draw, under panic, and the proxy at its index in the list
    as the Distributor holds it. *)
Definition victim_size (V : nat) (w : world) : nat :=
  length (Distributor.proxies (distributor w)) / V.

Definition victim_drawn (V : nat) (w : world) : proxy :=
  nth (tape (random w) (S (S (pos (random w)))) mod victim_size V w)
      (Distributor.proxies (distributor w)) 0.

(** The queue lengths of the examples: proxy 0 has three clients, proxy 1
    has five. *)
Definition three_five (p : proxy) : nat := match p with 0 => 3 | _ => 5 end.

Definition draws_of (l : list nat) : nat -> nat := fun i => nth i l 0.

(** Queue lengths for the panic branch: of four proxies the last two are
    loaded; of two proxies the second is loaded. *)
Definition loaded_last (p : proxy) : nat :=
  match p with 2 => 5 | 3 => 7 | _ => 0 end.

Definition loaded_second (p : proxy) : nat :=
  match p with 1 => 5 | _ => 0 end.

(** What [notify_block] leaves behind, case by case: the proxy was
    already blocked; it was not and [remove] fails; it was the last
    active proxy; it was one of several. *)
Definition with_lists (l b : list proxy) (ev : list Event) (w : world) : world :=
  set_distributor (Distributor.mk l b ev) w.

Definition miss_event (p : proxy) (w : world) : Event :=
  let d := distributor w in
  create_event (env_now w) MISS_PROXY_BLOCK (Distributor.proxies d)
               (Distributor.blocked d) p
               (PyFloat (health (length (Distributor.proxies d))
                                (length (Distributor.blocked d)))).

Definition record_miss (p : proxy) (w : world) : world :=
  let d := distributor w in
  with_lists (Distributor.proxies d) (Distributor.blocked d)
             (Distributor.events d ++ [miss_event p w]) w.

Definition death_event (p : proxy) (w : world) : Event :=
  create_event (env_now w) PROXY_DEATH [] (Distributor.blocked (distributor w) ++ [p])
               p (PyInt 0).

Definition block_event (p : proxy) (l : list proxy) (w : world) : Event :=
  let b := Distributor.blocked (distributor w) ++ [p] in
  create_event (env_now w) PROXY_BLOCK l b p (PyFloat (health (length l) (length b))).

Definition notify_block_outcome (p : proxy) (w : world) : result unit * world :=
  let d := distributor w in
  let b := Distributor.blocked d ++ [p] in
  if contains p (Distributor.blocked d) then (Return tt, record_miss p w)
  else
    match list_remove p (Distributor.proxies d) with
    | None =>
        (Raise ValueError, with_lists (Distributor.proxies d) b (Distributor.events d) w)
    | Some [] =>
        (Exit, with_lists [] b (Distributor.events d ++ [death_event p w]) w)
    | Some l =>
        (Return tt,
         set_panic_level
           (if length l <? length b then panic_level w + 1 else panic_level w)
           (with_lists l b (Distributor.events d ++ [block_event p l w]) w))
    end.

(** A relation between the world before and after a call; a call respects
    it when every way the call ends, returning or raising, relates the two
    worlds. *)
Definition respects (R : world -> world -> Prop) {A} (m : M A) : Prop :=
  forall w, R w (snd (m w)).

(** The frame of [assign]: it writes the random stream and the list of
    processes, and nothing else. *)
Record only_stream (w w' : world) : Prop := mk_only_stream {
  stream_now : env_now w' = env_now w;
  stream_level : panic_level w' = panic_level w;
  stream_distributor : distributor w' = distributor w;
  stream_censor : censor w' = censor w;
  stream_queue : queue w' = queue w;
  stream_flag : flag w' = flag w
}.

(** The events of a list that carry the time [t] and an action in [ok]. *)
Definition stamped (t : Q) (ok : action -> Prop) (l : list Event) : Prop :=
  Forall (fun e => time e = t /\ ok (act e)) l.

Definition exposure (a : action) : Prop := a = EXPOSE_CLIENT.

Definition enumeration (a : action) : Prop :=
  a = ENUMERATE_PROXY \/ a = MISS_ENUMERATE_PROXY.

(** The frame of a client arrival: the clock, the panic level and the two
    lists of the Distributor stay; each log grows at its end, by events
    stamped with the time of the arrival. *)
Record arrival_frame (w w' : world) : Prop := mk_arrival_frame {
  arr_now : env_now w' = env_now w;
  arr_level : panic_level w' = panic_level w;
  arr_proxies :
    Distributor.proxies (distributor w') = Distributor.proxies (distributor w);
  arr_blocked :
    Distributor.blocked (distributor w') = Distributor.blocked (distributor w);
  arr_bootstrap : Censor.bootstrap (censor w') = Censor.bootstrap (censor w);
  arr_log :
    exists l, Distributor.events (distributor w') =
              Distributor.events (distributor w) ++ l /\
              stamped (env_now w) exposure l;
  arr_censor_log :
    exists l, Censor.events (censor w') = Censor.events (censor w) ++ l /\
              stamped (env_now w) enumeration l
}.

(** The frame of the blocking loop around its one call of
    [notify_block]: the clock, the panic level and the Distributor
    stay. *)
Record same_distributor (w w' : world) : Prop := mk_same_distributor {
  sd_now : env_now w' = env_now w;
  sd_level : panic_level w' = panic_level w;
  sd_distributor : distributor w' = distributor w
}.

Definition active (s : sim) : list proxy := Distributor.proxies (distributor (world_of s)).
Definition blocked_list (s : sim) : list proxy :=
  Distributor.blocked (distributor (world_of s)).
Definition log (s : sim) : list Event := Distributor.events (distributor (world_of s)).
Definition censor_log (s : sim) : list Event := Censor.events (censor (world_of s)).
Definition level (s : sim) : nat := panic_level (world_of s).
Definition clock (s : sim) : Q := env_now (world_of s).

(** What one step does to the Distributor and to the logs: either it
    leaves the two lists and the panic level alone and lets each log grow
    by exposures, by enumerations, or it is the turn of the censor that
    calls [notify_block] once. *)
Inductive effect (s s' : sim) : Prop :=
| effect_quiet :
    (clock s <= clock s')%Q ->
    level s' = level s ->
    active s' = active s ->
    blocked_list s' = blocked_list s ->
    (exists l, log s' = log s ++ l /\ stamped (clock s') exposure l /\
               (active s = [] -> l = [])) ->
    (exists l, censor_log s' = censor_log s ++ l /\ stamped (clock s') enumeration l /\
               (active s = [] -> l = [])) ->
    (censor_running s' = true -> censor_running s = true) ->
    effect s s'
| effect_notify p w0 :
    censor_running s = true ->
    same_distributor (world_of s) w0 ->
    same_distributor (snd (notify_block p w0)) (world_of s') ->
    (fst (notify_block p w0) = Exit -> censor_running s' = false) ->
    censor_log s' = censor_log s ->
    effect s s'.

(** The four ways [notify_block] ends, on the two lists, the panic level
    and the log. *)
Inductive blocking (p : proxy) (w w' : world) (r : result unit) : Prop :=
| blocking_miss :
    In p (Distributor.blocked (distributor w)) ->
    r = Return tt ->
    Distributor.proxies (distributor w') = Distributor.proxies (distributor w) ->
    Distributor.blocked (distributor w') = Distributor.blocked (distributor w) ->
    panic_level w' = panic_level w ->
    Distributor.events (distributor w') =
      Distributor.events (distributor w) ++ [miss_event p w] ->
    blocking p w w' r
| blocking_absent :
    ~ In p (Distributor.blocked (distributor w)) ->
    ~ In p (Distributor.proxies (distributor w)) ->
    r = Raise ValueError ->
    Distributor.proxies (distributor w') = Distributor.proxies (distributor w) ->
    Distributor.blocked (distributor w') = Distributor.blocked (distributor w) ++ [p] ->
    panic_level w' = panic_level w ->
    Distributor.events (distributor w') = Distributor.events (distributor w) ->
    blocking p w w' r
| blocking_death :
    ~ In p (Distributor.blocked (distributor w)) ->
    list_remove p (Distributor.proxies (distributor w)) = Some [] ->
    r = Exit ->
    Distributor.proxies (distributor w') = [] ->
    Distributor.blocked (distributor w') = Distributor.blocked (distributor w) ++ [p] ->
    panic_level w' = panic_level w ->
    Distributor.events (distributor w') =
      Distributor.events (distributor w) ++ [death_event p w] ->
    blocking p w w' r
| blocking_move l :
    ~ In p (Distributor.blocked (distributor w)) ->
    list_remove p (Distributor.proxies (distributor w)) = Some l ->
    l <> [] ->
    r = Return tt ->
    Distributor.proxies (distributor w') = l ->
    Distributor.blocked (distributor w') = Distributor.blocked (distributor w) ++ [p] ->
    panic_level w' =
      (if length l <? length (Distributor.blocked (distributor w) ++ [p])
       then panic_level w + 1 else panic_level w) ->
    Distributor.events (distributor w') =
      Distributor.events (distributor w) ++ [block_event p l w] ->
    blocking p w w' r.

(** What a step that raises the panic level looks like. *)
Definition raised_by_block (s s' : sim) : Prop :=
  level s' = S (level s) /\
  exists p e,
    In p (active s) /\ ~ In p (blocked_list s) /\
    list_remove p (active s) = Some (active s') /\
    blocked_list s' = blocked_list s ++ [p] /\
    length (active s') < length (blocked_list s') /\
    log s' = log s ++ [e] /\ act e = PROXY_BLOCK /\ subject_proxy e = p.

(** The invariant of the two lists: no proxy twice in the active list,
    and no active proxy in the blocked list. *)
Definition separated (s : sim) : Prop :=
  NoDup (active s) /\ forall p, In p (active s) -> ~ In p (blocked_list s).

Definition bounded (t : Q) (l : list Event) : Prop :=
  Forall (fun e => (time e <= t)%Q) l.

(** Each log is in the order of time, and nothing in it is later than the
    clock. *)
Definition logs_in_order (s : sim) : Prop :=
  time_ordered (log s) /\ bounded (clock s) (log s) /\
  time_ordered (censor_log s) /\ bounded (clock s) (censor_log s).

(** The last event of the log is the PROXY_DEATH that [notify_block]
    recorded when it took the last active proxy, and there is no other
    PROXY_DEATH before it. *)
Definition death_recorded (s : sim) : Prop :=
  exists l p w0,
    log s = l ++ [death_event p w0] /\
    count_action PROXY_DEATH l = 0 /\
    Distributor.proxies (distributor w0) = [p] /\
    ~ In p (Distributor.blocked (distributor w0)) /\
    fst (notify_block p w0) = Exit /\
    Distributor.events (distributor (snd (notify_block p w0))) = log s.

Definition depletion_invariant (s : sim) : Prop :=
  count_action PROXY_DEATH (censor_log s) = 0 /\
  (active s <> [] -> count_action PROXY_DEATH (log s) = 0) /\
  (active s = [] -> censor_running s = false /\ death_recorded s).

(** A run with one proxy: the first client is malicious and the censor
    learns of proxy 0 at time 0; the clock moves to 1; the censor blocks
    proxy 0, the last active one. *)
Definition zeros : nat -> nat := fun _ => 0.

Definition sole0 : sim := start zeros 1%Q 1 0%Q.

Definition sole1 : sim :=
  after_arrival sole0 ((client_arrival 2 0 ;;; sleep 1%Q) (world_of sole0)).

Definition sole2 : sim := set_world (advance_clock 1%Q (world_of sole1)) sole1.

Definition sole3 : sim := after_block sole2 (block_turn (world_of sole2)).

(** A state with two active proxies and one blocked, where the censor
    knows proxy 0, and the state after the turn of the censor. *)
Definition outnumbered0 : sim :=
  mkSim (mkWorld 0%Q (mkRng zeros 0) 0
                 (Distributor.mk [0; 1] [2] [])
                 (Censor.mk [0] [] [] 0%Q)
                 (fun _ => []) (fun _ => false) [])
        1%Q 0 true true.

Definition outnumbered1 : sim :=
  after_block outnumbered0 (block_turn (world_of outnumbered0)).

(** ** More vocabulary: the rest of the calls *)

(** Whether the censor has the proxy in one of its two lists. *)
Definition known_to_censor (p : proxy) (w : world) : bool :=
  contains p (Censor.proxies (censor w)) || contains p (Censor.blocked (censor w)).

(** The event that [enumerate] records and the world it leaves. *)
Definition enumerate_event (p : proxy) (w : world) : Event :=
  let c := censor w in
  if known_to_censor p w
  then create_event (env_now w) MISS_ENUMERATE_PROXY (Censor.proxies c)
                    (Censor.blocked c) p (PyInt 0)
  else create_event (env_now w) ENUMERATE_PROXY (Censor.proxies c ++ [p])
                    (Censor.blocked c) p (PyInt 0).

Definition enumerated (p : proxy) (w : world) : world :=
  let c := censor w in
  set_censor
    (Censor.mk (if known_to_censor p w then Censor.proxies c else Censor.proxies c ++ [p])
               (Censor.blocked c)
               (Censor.events c ++ [enumerate_event p w])
               (Censor.bootstrap c))
    w.

(** The flag that [random.choice([True, False])] gives at the next cell. *)
Definition next_malicious (w : world) : bool :=
  Nat.eqb (tape (random w) (pos (random w)) mod 2) 0.

(** The world in which [assign] runs inside [client_arrival]. *)
Definition after_choice (w : world) : world := set_random (skip 1 (random w)) w.

Definition expose_event (p : proxy) (w : world) : Event :=
  create_event (env_now w) EXPOSE_CLIENT (Distributor.proxies (distributor w))
               (Distributor.blocked (distributor w)) p (PyInt 0).

(** [p] is the first of the list among those with the longest queue. *)
Definition first_most_loaded (key : proxy -> nat) (l : list proxy) (p : proxy) : Prop :=
  exists before after,
    l = before ++ p :: after /\
    (forall x, In x before -> key x < key p) /\
    (forall x, In x after -> key x <= key p).

(** The proxy that a turn of the censor blocks: the head of its known
    list after the sort; and the world in which [notify_block] is then
    called, with the list sorted and the flag of the proxy set. *)
Definition block_target (w : world) : proxy :=
  hd 0 (sorted_desc (queue_length w) (Censor.proxies (censor w))).

Definition block_ready (w : world) : world :=
  let c := censor w in
  set_flag (fun x => if Nat.eqb x (block_target w) then true else flag w x)
    (set_censor
       (Censor.mk (sorted_desc (queue_length w) (Censor.proxies c))
                  (Censor.blocked c) (Censor.events c) (Censor.bootstrap c))
       w).

(** The censor moves the proxy from its known list to its blocked
    list. *)
Definition censor_moves (p : proxy) (l : list proxy) (w : world) : world :=
  let c := censor w in
  set_censor (Censor.mk l (Censor.blocked c ++ [p]) (Censor.events c) (Censor.bootstrap c)) w.

Definition block_turn_outcome (w : world) : result unit * world :=
  if 0 <? length (Censor.proxies (censor w)) then
    let p := block_target w in
    match notify_block p (block_ready w) with
    | (Return _, w1) =>
        match list_remove p (Censor.proxies (censor w1)) with
        | Some l => (Return tt, after_choice (censor_moves p l w1))
        | None => (Raise ValueError, censor_moves p (Censor.proxies (censor w1)) w1)
        end
    | (Exit, w1) => (Exit, w1)
    | (Raise e, w1) => (Raise e, w1)
    end
  else (Return tt, after_choice w).

(** The two lists of the censor in a state of the run. *)
Definition known (s : sim) : list proxy := Censor.proxies (censor (world_of s)).
Definition censor_blocked (s : sim) : list proxy := Censor.blocked (censor (world_of s)).

(** The view of the censor: its known list has no proxy twice and none
    of its own blocked list; while its loop runs every known proxy is
    active; and what it has blocked the Distributor has blocked. *)
Definition censor_view (s : sim) : Prop :=
  NoDup (known s) /\
  (forall p, In p (known s) -> ~ In p (censor_blocked s)) /\
  (censor_running s = true -> forall p, In p (known s) -> In p (active s)) /\
  (forall p, In p (censor_blocked s) -> In p (blocked_list s)).

Definition sound (s : sim) : Prop := separated s /\ censor_view s.

(** What an arrival does to the lists of the censor: at most one proxy,
    an active one that is new to the censor, goes to the end of the
    known list. *)
Definition censor_learns (w w' : world) : Prop :=
  Censor.blocked (censor w') = Censor.blocked (censor w) /\
  (Censor.proxies (censor w') = Censor.proxies (censor w) \/
   exists p, In p (Distributor.proxies (distributor w)) /\
             ~ In p (Censor.proxies (censor w)) /\
             ~ In p (Censor.blocked (censor w)) /\
             Censor.proxies (censor w') = Censor.proxies (censor w) ++ [p]).

(** A step that leaves the Distributor's lists and the panic level. *)
Definition quiet (s s' : sim) : Prop :=
  (clock s <= clock s')%Q /\
  level s' = level s /\
  active s' = active s /\
  blocked_list s' = blocked_list s /\
  (exists l, log s' = log s ++ l /\ stamped (clock s') exposure l) /\
  (exists l, censor_log s' = censor_log s ++ l /\ stamped (clock s') enumeration l).

(** The action and the panic level after the block of a proxy that
    leaves [l] active and [b] blocked. *)
Definition block_action (l : list proxy) : action :=
  match l with [] => PROXY_DEATH | _ => PROXY_BLOCK end.

Definition level_after_block (l b : list proxy) (level : nat) : nat :=
  match l with
  | [] => level
  | _ => if length l <? length b then level + 1 else level
  end.

(** A step of a run from a sound state: a quiet one, or the block of a
    known, active proxy. *)
Inductive progress (s s' : sim) : Prop :=
| progress_quiet : quiet s s' -> progress s s'
| progress_block p l e :
    In p (known s) ->
    censor_running s = true ->
    list_remove p (active s) = Some l ->
    ~ In p (blocked_list s) ->
    active s' = l ->
    blocked_list s' = blocked_list s ++ [p] ->
    log s' = log s ++ [e] ->
    subject_proxy e = p ->
    act e = block_action l ->
    level s' = level_after_block l (blocked_list s') (level s) ->
    censor_log s' = censor_log s ->
    progress s s'.

(** The subjects of the PROXY_BLOCK and PROXY_DEATH events of a log, in
    the order of the log. *)
Definition is_block (e : Event) : bool :=
  action_eqb (act e) PROXY_BLOCK || action_eqb (act e) PROXY_DEATH.

Definition blocked_subjects (l : list Event) : list proxy :=
  map subject_proxy (filter is_block l).

Definition not_enumeration (e : Event) : Prop := ~ enumeration (act e).

(** The tally of a run of [n] proxies: every proxy is active or blocked;
    under panic the blocked outnumber the active; the panic level is at
    most the number of PROXY_BLOCK events; no MISS_PROXY_BLOCK is logged;
    the block events name the blocked list in its order; and each log
    holds the actions of its owner. *)
Definition tally (n : nat) (s : sim) : Prop :=
  length (active s) + length (blocked_list s) = n /\
  (forall p, In p (active s) \/ In p (blocked_list s) <-> p < n) /\
  (0 < level s -> length (active s) < length (blocked_list s)) /\
  level s <= count_action PROXY_BLOCK (log s) /\
  count_action MISS_PROXY_BLOCK (log s) = 0 /\
  blocked_subjects (log s) = blocked_list s /\
  Forall not_enumeration (log s) /\
  Forall (fun e => enumeration (act e)) (censor_log s).

(** A run with three proxies and clients that are all malicious and all
    draw index 0: proxy 0 is enumerated and blocked, then proxy 1 is
    enumerated and blocked, which starts the panic. *)
Definition trio0 : sim := Eval vm_compute in start zeros 1%Q 3 0%Q.

Definition trio1 : sim :=
  Eval vm_compute in
    after_arrival trio0 ((client_arrival 2 0 ;;; sleep 1%Q) (world_of trio0)).

Definition trio2 : sim :=
  Eval vm_compute in after_block trio1 (block_turn (world_of trio1)).

Definition trio3 : sim :=
  Eval vm_compute in
    after_arrival trio2 ((client_arrival 2 1 ;;; sleep 1%Q) (world_of trio2)).

Definition trio4 : sim :=
  Eval vm_compute in after_block trio3 (block_turn (world_of trio3)).

(** A run with one proxy and a censor that waits for one unit of time:
    the first client is malicious and the censor learns of proxy 0 at
    time 0; the generator draws a delay of 4; the censor wakes at time 1
    and blocks proxy 0, the last active one, which ends its process; the
    generator wakes at time 4, finds no proxy and returns. *)
Definition late_tape : nat -> nat := draws_of [0; 0; 0; 64].

Definition late0 : sim := Eval vm_compute in start late_tape 1%Q 1 1%Q.

Definition late1 : sim :=
  Eval vm_compute in
    after_arrival late0 ((client_arrival 2 0 ;;; sleep 1%Q) (world_of late0)).

Definition late2 : sim :=
  Eval vm_compute in set_world (advance_clock 1%Q (world_of late1)) late1.

Definition late3 : sim :=
  Eval vm_compute in after_block late2 (block_turn (world_of late2)).

Definition late4 : sim :=
  Eval vm_compute in set_world (advance_clock 3%Q (world_of late3)) late3.

Definition late5 : sim :=
  Eval vm_compute in
    mkSim (world_of late4) (interval late4) (counter late4) false (censor_running late4).

(** A run with three proxies and a censor that waits for one unit of
    time: a malicious client at time 0 enumerates proxy 0, blocked at
    time 1; a malicious client at time 3/2 enumerates proxy 1, blocked
    at time 2. *)
Definition busy_tape : nat -> nat := draws_of [0; 0; 0; 24; 16; 0; 0; 0; 64; 16].

Definition busy0 : sim := Eval vm_compute in start busy_tape 1%Q 3 1%Q.

Definition busy1 : sim :=
  Eval vm_compute in
    after_arrival busy0 ((client_arrival 2 0 ;;; sleep 1%Q) (world_of busy0)).

Definition busy2 : sim :=
  Eval vm_compute in set_world (advance_clock 1%Q (world_of busy1)) busy1.

Definition busy3 : sim :=
  Eval vm_compute in after_block busy2 (block_turn (world_of busy2)).

Definition busy4 : sim :=
  Eval vm_compute in set_world (advance_clock (1 # 2)%Q (world_of busy3)) busy3.

Definition busy5 : sim :=
  Eval vm_compute in
    after_arrival busy4 ((client_arrival 2 1 ;;; sleep 1%Q) (world_of busy4)).

Definition busy6 : sim :=
  Eval vm_compute in set_world (advance_clock (1 # 2)%Q (world_of busy5)) busy5.

Definition busy7 : sim :=
  Eval vm_compute in after_block busy6 (block_turn (world_of busy6)).

(** The actions that the Distributor records. *)
Definition distributor_action (a : action) : Prop :=
  a = EXPOSE_CLIENT \/ a = PROXY_BLOCK \/ a = MISS_PROXY_BLOCK \/ a = PROXY_DEATH.

(** * Properties *)

(** ** Running calls *)

Lemma bind_return A B (m : M A) (k : A -> M B) w a w' :
  m w = (Return a, w') -> bind m k w = k a w'.
Proof. intros H. unfold bind. rewrite H. reflexivity. Qed.

Lemma bind_exit A B (m : M A) (k : A -> M B) w w' :
  m w = (Exit, w') -> bind m k w = (Exit, w').
Proof. intros H. unfold bind. rewrite H. reflexivity. Qed.

Lemma bind_raise A B (m : M A) (k : A -> M B) w e w' :
  m w = (Raise e, w') -> bind m k w = (Raise e, w').
Proof. intros H. unfold bind. rewrite H. reflexivity. Qed.

Lemma randint_index n w :
  0 < n ->
  randint 0 (n - 1) w =
  (Return (tape (random w) (pos (random w)) mod n), set_random (skip 1 (random w)) w).
Proof.
  intros Hn. unfold randint.
  destruct (Nat.ltb_spec (n - 1) 0) as [H | _]; [lia |].
  unfold draw, skip. simpl.
  replace (n - 1 - 0 + 1) with n by lia. reflexivity.
Qed.

Lemma getitem_nth l i w :
  i < length l -> getitem l i w = (Return (nth i l 0), w).
Proof.
  intros Hi. unfold getitem.
  rewrite (nth_error_nth' l 0 Hi). reflexivity.
Qed.

Lemma mod_index r n : 0 < n -> r mod n < n.
Proof. intros H. apply Nat.mod_upper_bound. lia. Qed.

Lemma length_pos_of_nonempty (l : list proxy) : l <> [] -> 0 < length l.
Proof. destruct l; simpl; [congruence | lia]. Qed.

Lemma assign_default_run V c w :
  panic_level w = 0 ->
  Distributor.proxies (distributor w) <> [] ->
  assign V c w = (Return (shorter_of_two w), served 2 (shorter_of_two w) c w).
Proof.
  intros Hp Hne.
  pose proof (length_pos_of_nonempty _ Hne) as Hlen.
  unfold assign.
  unfold gets at 1. unfold bind at 1.
  unfold gets at 1. unfold bind at 1.
  destruct (Nat.eqb_spec (length (Distributor.proxies (distributor w))) 0) as [E | _];
    [lia |].
  unfold ret at 1. unfold bind at 1.
  rewrite (bind_return _ _ _ _ _ _ _ (randint_index _ w Hlen)).
  rewrite (bind_return _ _ _ _ _ _ _ (randint_index _ (set_random (skip 1 (random w)) w) Hlen)).
  rewrite (bind_return _ _ _ _ _ _ _ (getitem_nth _ _ _ (mod_index _ _ Hlen))).
  rewrite (bind_return _ _ _ _ _ _ _ (getitem_nth _ _ _ (mod_index _ _ Hlen))).
  unfold gets, bind, env_process, modify, ret. simpl.
  rewrite Hp. simpl.
  unfold shorter_of_two, first_drawn, second_drawn, first_index, second_index,
    queue_length, served, skip.
  simpl.
  destruct (_ <? _); reflexivity.
Qed.

Lemma victim_size_le V w :
  victim_size V w <= length (Distributor.proxies (distributor w)).
Proof.
  unfold victim_size. destruct V as [| V]; [simpl; lia |].
  apply Nat.Div0.div_le_upper_bound. nia.
Qed.

Lemma assign_panic_victims_run V c w :
  0 < panic_level w -> V <> 0 -> 0 < victim_size V w ->
  assign V c w = (Return (victim_drawn V w), served 3 (victim_drawn V w) c w).
Proof.
  intros Hp HV Hvs.
  pose proof (victim_size_le V w) as Hle.
  assert (Hlen : 0 < length (Distributor.proxies (distributor w))) by lia.
  unfold assign.
  unfold gets at 1. unfold bind at 1.
  unfold gets at 1. unfold bind at 1.
  destruct (Nat.eqb_spec (length (Distributor.proxies (distributor w))) 0) as [E | _];
    [lia |].
  unfold ret at 1. unfold bind at 1.
  rewrite (bind_return _ _ _ _ _ _ _ (randint_index _ w Hlen)).
  rewrite (bind_return _ _ _ _ _ _ _ (randint_index _ (set_random (skip 1 (random w)) w) Hlen)).
  rewrite (bind_return _ _ _ _ _ _ _ (getitem_nth _ _ _ (mod_index _ _ Hlen))).
  rewrite (bind_return _ _ _ _ _ _ _ (getitem_nth _ _ _ (mod_index _ _ Hlen))).
  unfold gets at 1. unfold bind at 1.
  unfold gets at 1. unfold bind at 1.
  cbn [panic_level set_random queue].
  destruct (Nat.ltb_spec 0 (panic_level w)) as [_ | H]; [| lia].
  unfold victim_size_of.
  destruct (Nat.eqb_spec V 0) as [E | _]; [contradiction |].
  unfold ret at 1. unfold bind at 1.
  fold (victim_size V w).
  destruct (Nat.ltb_spec 0 (victim_size V w)) as [_ | H]; [| lia].
  rewrite (bind_return _ _ _ _ _ _ _ (randint_index _ _ Hvs)).
  assert (Hi : tape (random w) (S (S (pos (random w)))) mod victim_size V w
               < length (Distributor.proxies (distributor w))).
  { pose proof (mod_index (tape (random w) (S (S (pos (random w))))) _ Hvs). lia. }
  cbn [random set_random skip tape pos Nat.add].
  rewrite (bind_return _ _ _ _ _ _ _ (getitem_nth _ _ _ Hi)).
  reflexivity.
Qed.

Lemma assign_panic_few_run V c w :
  0 < panic_level w -> V <> 0 -> victim_size V w = 0 ->
  Distributor.proxies (distributor w) <> [] ->
  assign V c w =
  (Return (nth 0 (Distributor.proxies (distributor w)) 0),
   set_random (skip 2 (random w)) w).
Proof.
  intros Hp HV Hvs Hne.
  pose proof (length_pos_of_nonempty _ Hne) as Hlen.
  unfold assign.
  unfold gets at 1. unfold bind at 1.
  unfold gets at 1. unfold bind at 1.
  destruct (Nat.eqb_spec (length (Distributor.proxies (distributor w))) 0) as [E | _];
    [lia |].
  unfold ret at 1. unfold bind at 1.
  rewrite (bind_return _ _ _ _ _ _ _ (randint_index _ w Hlen)).
  rewrite (bind_return _ _ _ _ _ _ _ (randint_index _ (set_random (skip 1 (random w)) w) Hlen)).
  rewrite (bind_return _ _ _ _ _ _ _ (getitem_nth _ _ _ (mod_index _ _ Hlen))).
  rewrite (bind_return _ _ _ _ _ _ _ (getitem_nth _ _ _ (mod_index _ _ Hlen))).
  unfold gets at 1. unfold bind at 1.
  unfold gets at 1. unfold bind at 1.
  cbn [panic_level set_random queue].
  destruct (Nat.ltb_spec 0 (panic_level w)) as [_ | H]; [| lia].
  unfold victim_size_of.
  destruct (Nat.eqb_spec V 0) as [E | _]; [contradiction |].
  unfold ret at 1. unfold bind at 1.
  fold (victim_size V w). rewrite Hvs. cbn [Nat.ltb Nat.leb].
  cbn [distributor set_random].
  rewrite (getitem_nth _ _ _ Hlen).
  reflexivity.
Qed.

(** ** Assignment *)

Lemma nth_In_proxies (l : list proxy) i : i < length l -> In (nth i l 0) l.
Proof. intros H. apply nth_In. exact H. Qed.

(** C5: in default mode ([panic_level = 0]) a call of [assign] on a list
    of active proxies that is not empty reads two cells of the random
    stream, one index into the list each (the same index may come twice),
    returns the second-drawn proxy when its queue is strictly shorter and
    the first-drawn proxy otherwise, ties included, and starts the
    service of the returned proxy for the client. *)
Theorem assign_default_shorter_queue V c w :
  panic_level w = 0 ->
  Distributor.proxies (distributor w) <> [] ->
  In (first_drawn w) (Distributor.proxies (distributor w)) /\
  In (second_drawn w) (Distributor.proxies (distributor w)) /\
  exists p,
    assign V c w = (Return p, served 2 p c w) /\
    (queue_length w (first_drawn w) < queue_length w (second_drawn w) ->
     p = first_drawn w) /\
    (queue_length w (second_drawn w) < queue_length w (first_drawn w) ->
     p = second_drawn w) /\
    (queue_length w (first_drawn w) = queue_length w (second_drawn w) ->
     p = first_drawn w).
Proof.
  intros Hp Hne.
  pose proof (length_pos_of_nonempty _ Hne) as Hlen.
  split; [apply nth_In_proxies, mod_index, Hlen |].
  split; [apply nth_In_proxies, mod_index, Hlen |].
  exists (shorter_of_two w).
  split; [apply assign_default_run; assumption |].
  unfold shorter_of_two.
  destruct (Nat.ltb_spec (queue_length w (second_drawn w))
                         (queue_length w (first_drawn w))) as [H | H];
    repeat split; intros; try reflexivity; lia.
Qed.

Example assign_three_five_first c :
  fst (assign 2 c (world_with [0; 1] [] three_five 0 (draws_of [0; 1]))) = Return 0.
Proof. reflexivity. Qed.

Example assign_five_three_second c :
  fst (assign 2 c (world_with [0; 1] [] three_five 0 (draws_of [1; 0]))) = Return 0.
Proof. reflexivity. Qed.

Example assign_same_index_twice c :
  let w := world_with [0; 1] [] three_five 0 (draws_of [1; 1]) in
  first_index w = 1 /\ second_index w = 1 /\ fst (assign 2 c w) = Return 1.
Proof. repeat split. Qed.

Example assign_tie_first_drawn c :
  fst (assign 2 c (world_with [0; 1] [] (fun _ => 3) 0 (draws_of [1; 0]))) = Return 1 /\
  fst (assign 2 c (world_with [0; 1] [] (fun _ => 3) 0 (draws_of [0; 1]))) = Return 0.
Proof. split; reflexivity. Qed.

(** C10: under panic the two draws of the default mode are still made
    first; the proxy returned does not depend on the cells they read, and
    the call leaves the stream three cells further when the victim set is
    not empty and two cells further when it is. *)
Theorem assign_panic_draws V c w other :
  0 < panic_level w -> V <> 0 ->
  Distributor.proxies (distributor w) <> [] ->
  (forall i, i <> pos (random w) -> i <> S (pos (random w)) ->
             other i = tape (random w) i) ->
  fst (assign V c (set_random (mkRng other (pos (random w))) w)) = fst (assign V c w) /\
  fst (assign V c w) =
  Return (if 0 <? victim_size V w then victim_drawn V w
          else nth 0 (Distributor.proxies (distributor w)) 0) /\
  pos (random (snd (assign V c w))) =
  (if 0 <? victim_size V w then 3 else 2) + pos (random w).
Proof.
  intros Hp HV Hne Hsame.
  set (w' := set_random (mkRng other (pos (random w))) w).
  destruct (Nat.ltb_spec 0 (victim_size V w)) as [Hvs | Hvs].
  - rewrite (assign_panic_victims_run V c w Hp HV Hvs).
    rewrite (assign_panic_victims_run V c w' Hp HV Hvs).
    split; [| split; reflexivity].
    cbn [fst]. unfold victim_drawn, victim_size. cbn [random set_random w' tape pos distributor].
    rewrite Hsame by lia. reflexivity.
  - assert (Hz : victim_size V w = 0) by lia.
    rewrite (assign_panic_few_run V c w Hp HV Hz Hne).
    rewrite (assign_panic_few_run V c w' Hp HV Hz Hne).
    repeat split; reflexivity.
Qed.

Lemma mod_two_cases r : r mod 2 = 0 \/ r mod 2 = 1.
Proof. pose proof (mod_index r 2). lia. Qed.

(** C1: with four active proxies of queue lengths 0, 0, 5 and 7, five
    blocked ones, panic on and [VICTIM_SET = 2], whatever is drawn,
    [assign] returns proxy 0 or proxy 1, the head of the list as the
    Distributor holds it, and never one of the two most loaded, which are
    proxies 3 and 2: the sorted list is computed and not read. *)
Theorem assign_panic_reads_unsorted_list c draws :
  let w := world_with [0; 1; 2; 3] [4; 5; 6; 7; 8] loaded_last 1 draws in
  top_loaded w 2 [0; 1; 2; 3] = [3; 2] /\
  exists p, fst (assign 2 c w) = Return p /\
            In p [0; 1] /\ ~ In p (top_loaded w 2 [0; 1; 2; 3]).
Proof.
  intros w. split; [reflexivity |].
  assert (Hp : 0 < panic_level w) by (simpl; lia).
  assert (Hvs : 0 < victim_size 2 w) by (unfold victim_size; simpl; lia).
  rewrite (assign_panic_victims_run 2 c w Hp (Nat.neq_succ_0 1) Hvs).
  exists (victim_drawn 2 w). split; [reflexivity |].
  unfold victim_drawn, victim_size. cbn [w world_with random distributor
    Distributor.proxies tape pos length].
  change (4 / 2) with 2.
  destruct (mod_two_cases (draws 2)) as [E | E]; rewrite E; simpl;
    split; try tauto; intros [H | [H | H]]; try discriminate; exact H.
Qed.

(** C3: with two active proxies of queue lengths 0 and 5, three blocked
    ones, panic on and [VICTIM_SET = 3], the victim set is empty and
    [assign] returns proxy 0, the head of the list, which is not the most
    loaded one; proxy 1 is. *)
Theorem assign_panic_few_returns_head c draws :
  let w := world_with [0; 1] [2; 3; 4] loaded_second 1 draws in
  victim_size 3 w = 0 /\
  fst (assign 3 c w) = Return 0 /\
  ~ most_loaded w [0; 1] 0 /\ most_loaded w [0; 1] 1.
Proof.
  intros w. split; [reflexivity |].
  assert (Hp : 0 < panic_level w) by (simpl; lia).
  assert (Hne : Distributor.proxies (distributor w) <> []) by (simpl; discriminate).
  rewrite (assign_panic_few_run 3 c w Hp (Nat.neq_succ_0 2) eq_refl Hne).
  split; [reflexivity |].
  split.
  - intros [_ H]. specialize (H 1 (or_intror (or_introl eq_refl))).
    unfold queue_length in H. simpl in H. lia.
  - split; [simpl; tauto |].
    intros x [E | [E | []]]; subst x; unfold queue_length; simpl; lia.
Qed.

(** C4: with one active proxy, two blocked ones, panic on and
    [VICTIM_SET = 2], the victim set is empty and [assign] returns the
    proxy without handing any process to the scheduler, where the same
    world without panic starts the service. *)
Theorem assign_panic_few_starts_nothing c draws :
  let w := world_with [0] [1; 2] (fun _ => 0) 1 draws in
  let calm := world_with [0] [1; 2] (fun _ => 0) 0 draws in
  fst (assign 2 c w) = Return 0 /\
  env_processes (snd (assign 2 c w)) = [] /\
  fst (assign 2 c calm) = Return 0 /\
  env_processes (snd (assign 2 c calm)) = [(0, c)].
Proof.
  intros w calm.
  assert (Hp : 0 < panic_level w) by (simpl; lia).
  assert (Hne : Distributor.proxies (distributor w) <> []) by (simpl; discriminate).
  rewrite (assign_panic_few_run 2 c w Hp (Nat.neq_succ_0 1) eq_refl Hne).
  assert (Hc : panic_level calm = 0) by reflexivity.
  rewrite (assign_default_run 2 c calm Hc Hne).
  repeat split.
Qed.

(** ** Block notification *)

Lemma notify_block_cases p w : notify_block p w = notify_block_outcome p w.
Proof.
  unfold notify_block, notify_block_outcome.
  unfold bind, gets, current_health, blocked_append, proxies_remove, add_event,
    upd_distributor, modify, ret, raise, env_exit, bind, gets.
  cbn [distributor set_distributor Distributor.blocked Distributor.proxies
       Distributor.events env_now].
  destruct (contains p (Distributor.blocked (distributor w))); [reflexivity |].
  destruct (list_remove p (Distributor.proxies (distributor w))) as [[| x l] |];
    cbn; try reflexivity.
  match goal with |- context [if ?c then _ else _] => destruct c end; reflexivity.
Qed.

Lemma contains_In x l : contains x l = true <-> In x l.
Proof.
  unfold contains. rewrite existsb_exists. split.
  - intros [y [Hy E]]. apply Nat.eqb_eq in E. subst y. exact Hy.
  - intros H. exists x. split; [exact H | apply Nat.eqb_refl].
Qed.

Lemma contains_not_In x l : contains x l = false <-> ~ In x l.
Proof.
  rewrite <- contains_In. destruct (contains x l); split; intros; congruence.
Qed.

Lemma list_remove_In x l : In x l -> exists r, list_remove x l = Some r.
Proof.
  induction l as [| y l IH]; simpl; [tauto |].
  intros H. destruct (Nat.eqb_spec x y) as [E | N]; [eauto |].
  destruct IH as [r Hr]; [destruct H; congruence |]. rewrite Hr. eauto.
Qed.

Lemma list_remove_Some x l r :
  list_remove x l = Some r ->
  In x l /\ length l = S (length r) /\ (forall y, In y r -> In y l) /\
  (NoDup l -> NoDup r /\ ~ In x r).
Proof.
  revert r. induction l as [| y l IH]; simpl; intros r H; [discriminate |].
  destruct (Nat.eqb_spec x y) as [E | N].
  - inversion H; subst. repeat split; auto.
    + inversion H0; assumption.
    + inversion H0; assumption.
  - destruct (list_remove x l) as [r' |]; [| discriminate].
    inversion H; subst r. destruct (IH r' eq_refl) as [Hin [Hlen [Hsub Hnd]]].
    repeat split; simpl; auto.
    + intros z [E | Hz]; auto.
    + inversion H0; subst. destruct (Hnd H4) as [Hr _].
      constructor; auto.
    + inversion H0; subst. destruct (Hnd H4) as [_ Hx].
      intros [E | Hz]; [congruence | contradiction].
Qed.

Lemma list_remove_None x l : list_remove x l = None -> ~ In x l.
Proof.
  intros H Hin. destruct (list_remove_In x l Hin) as [r Hr]. congruence.
Qed.

Lemma health_close_table :
  forallb (fun t => forallb (fun b => health_close (t - b) b) (seq 1 t))
          (seq 1 health_checked) = true.
Proof. vm_compute. reflexivity. Qed.

Lemma health_close_checked a b :
  0 < b -> a + b <= health_checked -> health_close a b = true.
Proof.
  intros Hb Hab.
  pose proof health_close_table as T. rewrite forallb_forall in T.
  assert (Ht : In (a + b) (seq 1 health_checked)) by (apply in_seq; lia).
  specialize (T _ Ht). rewrite forallb_forall in T.
  assert (Hin : In b (seq 1 (a + b))) by (apply in_seq; lia).
  specialize (T _ Hin). replace (a + b - b) with a in T by lia. exact T.
Qed.

Lemma health_near_formula a b :
  0 < b -> a + b <= health_checked ->
  exists q, float_value (health a b) = Some q /\
            (Qabs (q - health_formula a b) <= health_tolerance)%Q.
Proof.
  intros Hb Hab. pose proof (health_close_checked a b Hb Hab) as H.
  unfold health_close in H.
  destruct (float_value (health a b)) as [q |]; [| discriminate].
  exists q. split; [reflexivity | apply Qle_bool_iff; exact H].
Qed.

(** C8: [notify_block] on a proxy that is already in the blocked list
    returns (it does not raise, the run goes on), appends to the log one
    MISS_PROXY_BLOCK event and changes nothing else: the two lists and
    the panic level stay.  The health of the event is the float
    [(1 - len(blocked) / (len(proxies) + len(blocked))) * 100] on the
    lengths of the two lists as they are, and that float is the number
    (1 - |blocked| / (|active| + |blocked|)) x 100 up to the rounding of
    binary64, for every size that has been checked.  So on a proxy that
    is active and not blocked, two calls in a row append one PROXY_BLOCK
    or PROXY_DEATH event and then one MISS_PROXY_BLOCK event. *)
Theorem notify_block_already_blocked p w :
  (In p (Distributor.blocked (distributor w)) ->
   notify_block p w = (Return tt, record_miss p w) /\
   system_health (miss_event p w) =
   PyFloat (health (length (Distributor.proxies (distributor w)))
                   (length (Distributor.blocked (distributor w)))) /\
   (let w' := snd (notify_block p w) in
    let n_active := length (Distributor.proxies (distributor w)) in
    let n_blocked := length (Distributor.blocked (distributor w)) in
    let f := ((1 - float_of_len n_blocked / float_of_len (n_active + n_blocked)) * 100)%float in
    Distributor.events (distributor w') =
    Distributor.events (distributor w) ++
      [create_event (env_now w) MISS_PROXY_BLOCK (Distributor.proxies (distributor w))
                    (Distributor.blocked (distributor w)) p (PyFloat f)] /\
    Distributor.proxies (distributor w') = Distributor.proxies (distributor w) /\
    Distributor.blocked (distributor w') = Distributor.blocked (distributor w) /\
    panic_level w' = panic_level w /\
    (n_active + n_blocked <= health_checked ->
     exists q, float_value f = Some q /\
               (Qabs (q - health_formula n_active n_blocked) <= health_tolerance)%Q))) /\
  (In p (Distributor.proxies (distributor w)) ->
   ~ In p (Distributor.blocked (distributor w)) ->
   let w1 := snd (notify_block p w) in
   let w2 := snd (notify_block p w1) in
   exists e1,
     Distributor.events (distributor w1) = Distributor.events (distributor w) ++ [e1] /\
     (act e1 = PROXY_BLOCK \/ act e1 = PROXY_DEATH) /\ subject_proxy e1 = p /\
     fst (notify_block p w1) = Return tt /\
     Distributor.events (distributor w2) =
     Distributor.events (distributor w) ++ [e1; miss_event p w1] /\
     Distributor.proxies (distributor w2) = Distributor.proxies (distributor w1) /\
     Distributor.blocked (distributor w2) = Distributor.blocked (distributor w1)).
Proof.
  split.
  - intros Hin.
    assert (Hcall : notify_block p w = (Return tt, record_miss p w)).
    { rewrite notify_block_cases. unfold notify_block_outcome.
      apply contains_In in Hin. rewrite Hin. reflexivity. }
    split; [exact Hcall |]. split; [reflexivity |].
    rewrite Hcall. cbn [snd].
    split; [reflexivity |]. split; [reflexivity |]. split; [reflexivity |].
    split; [reflexivity |].
    intros Hsize. apply health_near_formula; [| exact Hsize].
    destruct (Distributor.blocked (distributor w)); [contradiction | cbn; lia].
  - intros Hact Hnb w1 w2.
    assert (Hb1 : In p (Distributor.blocked (distributor w1))).
    { subst w1. rewrite notify_block_cases. unfold notify_block_outcome.
      apply contains_not_In in Hnb. rewrite Hnb.
      destruct (list_remove_In p _ Hact) as [r Hr]. rewrite Hr.
      destruct r; cbn; apply in_or_app; right; left; reflexivity. }
    assert (H2 : notify_block p w1 = (Return tt, record_miss p w1)).
    { rewrite notify_block_cases. unfold notify_block_outcome.
      apply contains_In in Hb1. rewrite Hb1. reflexivity. }
    assert (H1 : exists e1,
               Distributor.events (distributor w1) =
               Distributor.events (distributor w) ++ [e1] /\
               (act e1 = PROXY_BLOCK \/ act e1 = PROXY_DEATH) /\ subject_proxy e1 = p).
    { subst w1. rewrite notify_block_cases. unfold notify_block_outcome.
      apply contains_not_In in Hnb. rewrite Hnb.
      destruct (list_remove_In p _ Hact) as [r Hr]. rewrite Hr.
      destruct r; cbn; eexists; split; try reflexivity; cbn; auto. }
    destruct H1 as [e1 [He [Ha Hs]]]. exists e1.
    subst w2. rewrite H2. cbn [fst snd].
    repeat split; auto.
    cbn. rewrite He. rewrite <- app_assoc. reflexivity.
Qed.

(** ** Frames *)

Section Respects.

Variable R : world -> world -> Prop.
Hypothesis R_refl : forall w, R w w.
Hypothesis R_trans : forall w1 w2 w3, R w1 w2 -> R w2 w3 -> R w1 w3.

Lemma respects_ret A (a : A) : respects R (ret a).
Proof. intros w. apply R_refl. Qed.

Lemma respects_gets A (f : world -> A) : respects R (gets f).
Proof. intros w. apply R_refl. Qed.

Lemma respects_raise A e : respects R (@raise A e).
Proof. intros w. apply R_refl. Qed.

Lemma respects_exit A : respects R (@env_exit A).
Proof. intros w. apply R_refl. Qed.

Lemma respects_bind A B (m : M A) (k : A -> M B) :
  respects R m -> (forall a, respects R (k a)) -> respects R (bind m k).
Proof.
  intros Hm Hk w. unfold bind. specialize (Hm w).
  destruct (m w) as [[a | | e] w1]; cbn [snd] in *; auto.
  eapply R_trans; [exact Hm | apply Hk].
Qed.

Lemma respects_if A (b : bool) (m1 m2 : M A) :
  respects R m1 -> respects R m2 -> respects R (if b then m1 else m2).
Proof. destruct b; auto. Qed.

Lemma respects_modify (f : world -> world) :
  (forall w, R w (f w)) -> respects R (modify f).
Proof. intros H w. apply H. Qed.

End Respects.

Lemma only_stream_refl w : only_stream w w.
Proof. constructor; reflexivity. Qed.

Lemma only_stream_trans w1 w2 w3 :
  only_stream w1 w2 -> only_stream w2 w3 -> only_stream w1 w3.
Proof. intros [] []. constructor; congruence. Qed.

Lemma only_stream_set_random g w : only_stream w (set_random g w).
Proof. constructor; reflexivity. Qed.

Lemma only_stream_set_env_processes l w : only_stream w (set_env_processes l w).
Proof. constructor; reflexivity. Qed.

Lemma randint_only_stream a b : respects only_stream (randint a b).
Proof.
  unfold randint. destruct (b <? a).
  - apply respects_raise. apply only_stream_refl.
  - intros w. unfold draw. cbn. apply only_stream_set_random.
Qed.

Lemma getitem_only_stream l i : respects only_stream (getitem l i).
Proof.
  unfold getitem. destruct (nth_error l i); intros w; apply only_stream_refl.
Qed.

Lemma env_process_only_stream p c : respects only_stream (env_process p c).
Proof. intros w. apply only_stream_set_env_processes. Qed.

Lemma sleep_only_stream interval : respects only_stream (sleep interval).
Proof.
  intros w. unfold sleep, true_div, expovariate, env_timeout, bind, ret, raise, draw.
  destruct (Qeq_bool interval 0); cbn; [apply only_stream_refl |].
  destruct (Qeq_bool (1 / interval) 0); cbn; [apply only_stream_set_random |].
  destruct (Qle_bool 0 _); cbn; apply only_stream_set_random.
Qed.

Lemma unit_sample_nonneg r : (0 <= unit_sample r)%Q.
Proof. unfold unit_sample, Qle. cbn. lia. Qed.

(** With a positive interval the two lines read one cell and yield. *)
Lemma sleep_run interval w :
  (0 < interval)%Q -> sleep interval w = (Return tt, after_choice w).
Proof.
  intros Hpos.
  assert (Hinv : (0 < 1 / interval)%Q).
  { apply Qlt_shift_div_l; [exact Hpos | lra]. }
  assert (E1 : Qeq_bool interval 0 = false).
  { destruct (Qeq_bool interval 0) eqn:E; [| reflexivity].
    apply Qeq_bool_iff in E. lra. }
  assert (E2 : Qeq_bool (1 / interval) 0 = false).
  { destruct (Qeq_bool (1 / interval) 0) eqn:E; [| reflexivity].
    apply Qeq_bool_iff in E. set (x := (1 / interval)%Q) in *. lra. }
  assert (E3 : forall r, Qle_bool 0 (unit_sample r / (1 / interval)) = true).
  { intros r. apply Qle_bool_iff. apply Qle_shift_div_l; [exact Hinv |].
    pose proof (unit_sample_nonneg r). lra. }
  unfold sleep, true_div, expovariate, env_timeout, bind, ret, raise, draw.
  rewrite E1. cbn. rewrite E2. cbn. rewrite E3. reflexivity.
Qed.

Lemma sleep_blocking_rate w : sleep blocking_rate w = (Return tt, after_choice w).
Proof. apply sleep_run. reflexivity. Qed.

Lemma choice_bool_only_stream : respects only_stream choice_bool.
Proof.
  unfold choice_bool.
  apply respects_bind; [apply only_stream_trans | apply randint_only_stream |].
  intros i w. apply only_stream_refl.
Qed.

Lemma assign_only_stream V c : respects only_stream (assign V c).
Proof.
  unfold assign, victim_size_of.
  repeat first
    [ apply randint_only_stream
    | apply getitem_only_stream
    | apply env_process_only_stream
    | apply respects_bind; [ apply only_stream_trans | | intros ]
    | apply respects_if
    | apply respects_ret; apply only_stream_refl
    | apply respects_gets; apply only_stream_refl
    | apply respects_raise; apply only_stream_refl
    | apply respects_exit; apply only_stream_refl ].
Qed.

Lemma arrival_frame_of_stream w w' : only_stream w w' -> arrival_frame w w'.
Proof.
  intros []. constructor; try congruence.
  - exists []. rewrite app_nil_r. split; [congruence | constructor].
  - exists []. rewrite app_nil_r. split; [congruence | constructor].
Qed.

Lemma arrival_frame_refl w : arrival_frame w w.
Proof. apply arrival_frame_of_stream, only_stream_refl. Qed.

Lemma arrival_frame_trans w1 w2 w3 :
  arrival_frame w1 w2 -> arrival_frame w2 w3 -> arrival_frame w1 w3.
Proof.
  intros [N1 L1 P1 B1 T1 [l1 [E1 S1]] [c1 [F1 U1]]]
         [N2 L2 P2 B2 T2 [l2 [E2 S2]] [c2 [F2 U2]]].
  constructor; try congruence.
  - exists (l1 ++ l2). split.
    + rewrite E2, E1, app_assoc. reflexivity.
    + apply Forall_app. split; [exact S1 |]. rewrite <- N1. exact S2.
  - exists (c1 ++ c2). split.
    + rewrite F2, F1, app_assoc. reflexivity.
    + apply Forall_app. split; [exact U1 |]. rewrite <- N1. exact U2.
Qed.

Lemma enumerate_frame p : respects arrival_frame (enumerate p).
Proof.
  intros w. unfold enumerate, bind, gets, upd_censor, modify, ret.
  destruct (negb (contains p (Censor.proxies (censor w))) &&
            negb (contains p (Censor.blocked (censor w))));
    cbn; constructor; cbn; try reflexivity.
  - exists []. rewrite app_nil_r. split; [reflexivity | constructor].
  - eexists. split; [reflexivity |].
    constructor; [| constructor]. cbn. split; [reflexivity | left; reflexivity].
  - exists []. rewrite app_nil_r. split; [reflexivity | constructor].
  - eexists. split; [reflexivity |].
    constructor; [| constructor]. cbn. split; [reflexivity | right; reflexivity].
Qed.

Lemma expose_frame w p l b :
  arrival_frame w
    (snd (add_event (create_event (env_now w) EXPOSE_CLIENT l b p (PyInt 0)) w)).
Proof.
  unfold add_event, upd_distributor, modify. cbn.
  constructor; cbn; try reflexivity.
  - eexists. split; [reflexivity |].
    constructor; [| constructor]. cbn. split; reflexivity.
  - exists []. rewrite app_nil_r. split; [reflexivity | constructor].
Qed.

Lemma client_arrival_frame V name : respects arrival_frame (client_arrival V name).
Proof.
  intros w. unfold client_arrival.
  unfold gets at 1. unfold bind at 1.
  unfold bind at 1.
  pose proof (choice_bool_only_stream w) as H1.
  destruct (choice_bool w) as [[malicious | | e] w1]; cbn [snd] in *;
    try (apply arrival_frame_of_stream; exact H1).
  unfold bind at 1.
  pose proof (assign_only_stream V (mkClient name malicious) w1) as H2.
  destruct (assign V (mkClient name malicious) w1) as [[p | | e] w2]; cbn [snd] in *;
    try (apply arrival_frame_of_stream; eapply only_stream_trans; eassumption).
  assert (H12 : only_stream w w2) by (eapply only_stream_trans; eassumption).
  apply arrival_frame_trans with w2; [apply arrival_frame_of_stream; exact H12 |].
  destruct malicious.
  - apply enumerate_frame.
  - unfold gets at 1. unfold bind at 1.
    destruct (contains p (Censor.proxies (censor w2))).
    + unfold gets at 1. unfold bind at 1.
      rewrite <- (stream_now _ _ H12). apply expose_frame.
    + apply arrival_frame_refl.
Qed.

Lemma arrival_turn_frame V rate name w out :
  arrival_turn V rate name w = Some out ->
  Distributor.proxies (distributor w) <> [] /\ arrival_frame w (snd out).
Proof.
  unfold arrival_turn.
  destruct (Distributor.proxies (distributor w)) as [| x l] eqn:E; cbn; [discriminate |].
  intros H. inversion H; subst out. split; [discriminate |].
  apply (respects_bind arrival_frame arrival_frame_trans).
  - apply client_arrival_frame.
  - intros _ w1. apply arrival_frame_of_stream, sleep_only_stream.
Qed.

Lemma notify_block_censor p w :
  censor (snd (notify_block p w)) = censor w /\
  env_now (snd (notify_block p w)) = env_now w.
Proof.
  rewrite notify_block_cases. unfold notify_block_outcome.
  destruct (contains p (Distributor.blocked (distributor w))); [split; reflexivity |].
  destruct (list_remove p (Distributor.proxies (distributor w))) as [[| x l] |];
    split; reflexivity.
Qed.

Lemma block_turn_call w :
  Censor.events (censor (snd (block_turn w))) = Censor.events (censor w) /\
  Censor.bootstrap (censor (snd (block_turn w))) = Censor.bootstrap (censor w) /\
  (same_distributor w (snd (block_turn w)) \/
   exists p w0,
     same_distributor w w0 /\
     same_distributor (snd (notify_block p w0)) (snd (block_turn w)) /\
     (fst (notify_block p w0) = Exit -> fst (block_turn w) = Exit)).
Proof.
  cbv beta iota zeta delta
    [block_turn proxy_block bind gets upd_censor modify ret getitem raise].
  destruct (0 <? length (Censor.proxies (censor w))).
  2: { rewrite sleep_blocking_rate.
       cbn. repeat split; try reflexivity. left. constructor; reflexivity. }
  cbn [censor set_censor Censor.proxies].
  destruct (nth_error _ 0) as [p |].
  2: { cbn. repeat split; try reflexivity. left. constructor; reflexivity. }
  match goal with
  | |- context [notify_block p ?w0] => remember w0 as before eqn:Hb
  end.
  assert (Hs : same_distributor w before) by (rewrite Hb; constructor; reflexivity).
  assert (He : Censor.events (censor before) = Censor.events (censor w))
    by (rewrite Hb; reflexivity).
  assert (Ht : Censor.bootstrap (censor before) = Censor.bootstrap (censor w))
    by (rewrite Hb; reflexivity).
  clear Hb.
  pose proof (notify_block_censor p before) as [Hc Hn].
  destruct (notify_block p before) as [[[] | | e] w1] eqn:E; cbn [fst snd] in *.
  - destruct (list_remove p _) as [l |]; rewrite ?sleep_blocking_rate;
      (split; [cbn; rewrite Hc; exact He |]);
      (split; [cbn; rewrite Hc; exact Ht |]);
      right; exists p, before; rewrite E; cbn [fst snd];
      (split; [exact Hs |]); (split; [constructor; reflexivity | discriminate]).
  - split; [cbn; rewrite Hc; exact He |].
    split; [cbn; rewrite Hc; exact Ht |].
    right. exists p, before. rewrite E. cbn [fst snd].
    split; [exact Hs |]. split; [constructor; reflexivity | reflexivity].
  - split; [cbn; rewrite Hc; exact He |].
    split; [cbn; rewrite Hc; exact Ht |].
    right. exists p, before. rewrite E. cbn [fst snd].
    split; [exact Hs |]. split; [constructor; reflexivity | discriminate].
Qed.

(** ** Steps of a run *)

Lemma no_growth (t : Q) (ok : action -> Prop) (P : Prop) (l : list Event) :
  exists l', l = l ++ l' /\ stamped t ok l' /\ (P -> l' = []).
Proof. exists []. rewrite app_nil_r. repeat split; auto. constructor. Qed.

Lemma after_arrival_world s out : world_of (after_arrival s out) = snd out.
Proof. unfold after_arrival. destruct (fst out); reflexivity. Qed.

Lemma after_arrival_censor s out :
  censor_running (after_arrival s out) = true -> censor_running s = true.
Proof. unfold after_arrival. destruct (fst out); cbn; auto; discriminate. Qed.

Lemma after_block_world s out : world_of (after_block s out) = snd out.
Proof. unfold after_block. destruct (fst out); reflexivity. Qed.

Lemma step_effect V s s' : step V s s' -> effect s s'.
Proof.
  intros H. destruct H as [s d Hd | s q k | s out Hrun Hturn | s Hrun Hturn | s Hrun Hboot].
  - apply effect_quiet; unfold clock, level, active, blocked_list, log, censor_log;
      cbn; auto using no_growth.
    lra.
  - apply effect_quiet; unfold clock, level, active, blocked_list, log, censor_log;
      cbn; auto using no_growth.
    apply Qle_refl.
  - destruct (arrival_turn_frame _ _ _ _ _ Hturn) as [Hne [N L P B T [l [E S]] [c [F U]]]].
    apply effect_quiet; unfold clock, level, active, blocked_list, log, censor_log;
      rewrite ?after_arrival_world; auto.
    + rewrite N. apply Qle_refl.
    + exists l. rewrite N. repeat split; auto. intros; contradiction.
    + exists c. rewrite N. repeat split; auto. intros; contradiction.
    + apply after_arrival_censor.
  - apply effect_quiet; unfold clock, level, active, blocked_list, log, censor_log;
      cbn; auto using no_growth.
    apply Qle_refl.
  - destruct (block_turn_call (world_of s)) as [He [Ht [Hs | [p [w0 [H0 [H1 Hx]]]]]]].
    + destruct Hs as [N L D].
      apply effect_quiet; unfold clock, level, active, blocked_list, log, censor_log;
        rewrite ?after_block_world; rewrite ?D, ?He; auto using no_growth.
      rewrite N. apply Qle_refl.
    + apply effect_notify with p w0; auto.
      * rewrite after_block_world. exact H1.
      * intros Hexit. specialize (Hx Hexit). unfold after_block. rewrite Hx. reflexivity.
      * unfold censor_log. rewrite after_block_world. exact He.
Qed.

Lemma notify_block_blocking p w :
  blocking p w (snd (notify_block p w)) (fst (notify_block p w)).
Proof.
  rewrite notify_block_cases. unfold notify_block_outcome.
  destruct (contains p (Distributor.blocked (distributor w))) eqn:Hb.
  - apply blocking_miss; try reflexivity. apply contains_In. exact Hb.
  - apply contains_not_In in Hb.
    destruct (list_remove p (Distributor.proxies (distributor w))) as [[| x l] |] eqn:Hr.
    + apply blocking_death; auto.
    + apply blocking_move with (x :: l); auto. discriminate.
    + apply blocking_absent; auto. apply list_remove_None. exact Hr.
Qed.

(** ** Panic *)

Lemma steps_trans V s1 s2 s3 : steps V s1 s2 -> steps V s2 s3 -> steps V s1 s3.
Proof.
  intros H12 H23. induction H23 as [| s2 s3 s4 _ IH Hstep]; [exact H12 |].
  eapply steps_step; [apply IH; exact H12 | exact Hstep].
Qed.

Lemma step_level V s s' : step V s s' -> level s' = level s \/ raised_by_block s s'.
Proof.
  intros H. apply step_effect in H.
  destruct H as [_ L _ _ _ _ _ | p w0 _ [N0 L0 D0] [N1 L1 D1] _ _]; [left; exact L |].
  pose proof (notify_block_blocking p w0) as Hb.
  unfold raised_by_block, level, active, blocked_list, log.
  rewrite D1, L1. rewrite <- D0, <- L0.
  destruct Hb as [_ _ _ _ L _ | _ _ _ _ _ L _ | _ _ _ _ _ L _ | l Hnb Hr Hne _ HP HB L HE];
    try (left; exact L).
  rewrite L, HP, HB, HE.
  destruct (Nat.ltb_spec (length l) (length (Distributor.blocked (distributor w0) ++ [p])))
    as [Hlt | Hge]; [right | left; reflexivity].
  split; [lia |].
  exists p, (block_event p l w0).
  destruct (list_remove_Some _ _ _ Hr) as [Hin _].
  repeat split; auto.
Qed.

Lemma steps_level V s s' : steps V s s' -> level s <= level s'.
Proof.
  induction 1 as [| s1 s2 s3 _ IH Hstep]; [lia |].
  destruct (step_level _ _ _ Hstep) as [E | [E _]]; lia.
Qed.

(** C6: over any stretch of a run the panic level does not go down; one
    step leaves it as it is or raises it by one, and when it is raised
    the step is a [notify_block] that moved a proxy from the active list
    to the blocked list, recorded PROXY_BLOCK, and left more blocked than
    active proxies. *)
Theorem panic_level_only_grows_at_block V s s' :
  (steps V s s' -> level s <= level s') /\
  (step V s s' -> level s' = level s \/ raised_by_block s s').
Proof.
  split; [apply steps_level | apply step_level].
Qed.

(** ** Active and blocked *)

Lemma fold_append_seq (l acc : list proxy) :
  fold_left (fun proxies i => proxies ++ [i]) l acc = acc ++ l.
Proof.
  revert acc. induction l as [| x l IH]; intros acc; simpl.
  - rewrite app_nil_r. reflexivity.
  - rewrite IH, <- app_assoc. reflexivity.
Qed.

Lemma bootstrap_proxies_seq n : bootstrap_proxies n = seq 0 n.
Proof. unfold bootstrap_proxies. apply fold_append_seq. Qed.

Lemma start_separated seed rate n b : separated (start seed rate n b).
Proof.
  unfold separated, active, blocked_list. cbn.
  rewrite bootstrap_proxies_seq. split; [apply seq_NoDup | auto].
Qed.

Lemma step_separated V s s' : step V s s' -> separated s -> separated s'.
Proof.
  intros H [Hnd Hdis]. apply step_effect in H.
  destruct H as [_ _ A B _ _ _ | p w0 _ [N0 L0 D0] [N1 L1 D1] _ _].
  - unfold separated. rewrite A, B. split; assumption.
  - pose proof (notify_block_blocking p w0) as Hb.
    unfold separated, active, blocked_list in *.
    rewrite D1. rewrite <- D0 in Hnd, Hdis.
    destruct Hb as [_ _ HP HB _ _ | Hnb Hna _ HP HB _ _ | Hnb Hr _ HP HB _ _
                   | l Hnb Hr _ _ HP HB _ _]; rewrite HP, HB.
    + split; assumption.
    + split; [assumption |].
      intros x Hx Hin. apply in_app_or in Hin. destruct Hin as [Hin | [E | []]].
      * exact (Hdis x Hx Hin).
      * subst x. contradiction.
    + split; [constructor | intros x []].
    + destruct (list_remove_Some _ _ _ Hr) as [_ [_ [Hsub Hnodup]]].
      destruct (Hnodup Hnd) as [Hl Hpl].
      split; [exact Hl |].
      intros x Hx Hin. apply in_app_or in Hin. destruct Hin as [Hin | [E | []]].
      * exact (Hdis x (Hsub x Hx) Hin).
      * subst x. contradiction.
Qed.

Lemma steps_separated V s s' : steps V s s' -> separated s -> separated s'.
Proof.
  induction 1 as [| s1 s2 s3 _ IH Hstep]; intros Hs; [exact Hs |].
  eapply step_separated; [exact Hstep | apply IH; exact Hs].
Qed.

Lemma step_blocked_stays V s s' p :
  step V s s' -> In p (blocked_list s) -> In p (blocked_list s').
Proof.
  intros H Hin. apply step_effect in H.
  destruct H as [_ _ _ B _ _ _ | q w0 _ [N0 L0 D0] [N1 L1 D1] _ _].
  - rewrite B. exact Hin.
  - pose proof (notify_block_blocking q w0) as Hb.
    unfold blocked_list in *. rewrite D1. rewrite <- D0 in Hin.
    destruct Hb as [_ _ _ HB _ _ | _ _ _ _ HB _ _ | _ _ _ _ HB _ _ | l _ _ _ _ _ HB _ _];
      rewrite HB; auto using in_or_app.
Qed.

Lemma steps_blocked_stays V s s' p :
  steps V s s' -> In p (blocked_list s) -> In p (blocked_list s').
Proof.
  induction 1 as [| s1 s2 s3 _ IH Hstep]; intros Hin; [exact Hin |].
  eapply step_blocked_stays; [exact Hstep | apply IH; exact Hin].
Qed.

(** C7: in every state that a run reaches no proxy is both in the active
    list and in the blocked list of the Distributor, and a proxy that is
    in the blocked list stays there and is not in the active list in any
    later state. *)
Theorem active_and_blocked_disjoint V seed client_arrival_rate num_proxies censor_bootstrap s :
  reachable V seed client_arrival_rate num_proxies censor_bootstrap s ->
  (forall p, ~ (In p (active s) /\ In p (blocked_list s))) /\
  (forall s' p, steps V s s' -> In p (blocked_list s) ->
                In p (blocked_list s') /\ ~ In p (active s')).
Proof.
  intros Hreach.
  assert (Hs : separated s)
    by (eapply steps_separated; [exact Hreach | apply start_separated]).
  split.
  - intros p [Ha Hb]. exact (proj2 Hs p Ha Hb).
  - intros s' p Hsteps Hb.
    pose proof (steps_blocked_stays _ _ _ _ Hsteps Hb) as Hb'.
    split; [exact Hb' |].
    intros Ha. exact (proj2 (steps_separated _ _ _ Hsteps Hs) p Ha Hb').
Qed.

(** ** The two logs *)

Lemma stamped_ordered t ok l : stamped t ok l -> time_ordered l /\ bounded t l.
Proof.
  induction 1 as [| e l [He _] Hl [IH1 IH2]].
  - split; constructor.
  - split.
    + constructor; [exact IH1 |].
      eapply Forall_impl; [| exact Hl]. cbn. intros a [Ha _]. rewrite He, Ha.
      apply Qle_refl.
    + constructor; [rewrite He; apply Qle_refl | exact IH2].
Qed.

Lemma ordered_grow l t t' ok l' :
  time_ordered l -> bounded t l -> (t <= t')%Q -> stamped t' ok l' ->
  time_ordered (l ++ l') /\ bounded t' (l ++ l').
Proof.
  intros Hl Hb Ht Hs.
  destruct (stamped_ordered _ _ _ Hs) as [Hl' Hb'].
  induction Hl as [| e l Hl IH He].
  - split; assumption.
  - inversion Hb as [| e0 l0 Hte Hbl]; subst.
    destruct (IH Hbl) as [IH1 IH2].
    split.
    + cbn. constructor; [exact IH1 |].
      apply Forall_app. split; [exact He |].
      eapply Forall_impl; [| exact Hs]. cbn. intros a [Ha _]. rewrite Ha.
      eapply Qle_trans; eassumption.
    + cbn. constructor; [eapply Qle_trans; eassumption | exact IH2].
Qed.

Lemma stamped_one t ok e : time e = t -> ok (act e) -> stamped t ok [e].
Proof. intros Ht Ha. constructor; [split; assumption | constructor]. Qed.

Lemma start_logs_in_order seed rate n b : logs_in_order (start seed rate n b).
Proof. repeat split; constructor. Qed.

Lemma step_logs_in_order V s s' : step V s s' -> logs_in_order s -> logs_in_order s'.
Proof.
  intros H [O1 [B1 [O2 B2]]]. apply step_effect in H.
  destruct H as [Hc _ _ _ [l [E [S _]]] [c [F [U _]]] _
                | p w0 _ [N0 L0 D0] [N1 L1 D1] _ Hcl].
  - unfold logs_in_order. rewrite E, F.
    destruct (ordered_grow _ _ _ _ _ O1 B1 Hc S).
    destruct (ordered_grow _ _ _ _ _ O2 B2 Hc U).
    auto.
  - pose proof (notify_block_blocking p w0) as Hb.
    destruct (notify_block_censor p w0) as [_ Hn].
    assert (Hclock : clock s' = clock s) by (unfold clock; congruence).
    unfold logs_in_order. rewrite Hcl, Hclock.
    split; [| split]; [| | split; assumption].
    + unfold log in *. rewrite D1. rewrite <- D0 in O1, B1.
      assert (Hone : forall e, time e = clock s ->
                time_ordered (Distributor.events (distributor w0) ++ [e])).
      { intros e He.
        apply (ordered_grow _ _ _ (fun _ => True) [e] O1 B1 (Qle_refl _)).
        apply stamped_one; auto. }
      destruct Hb as [_ _ _ _ _ HE | _ _ _ _ _ _ HE | _ _ _ _ _ _ HE | l _ _ _ _ _ _ _ HE];
        rewrite HE; try exact O1; apply Hone; unfold clock; cbn; congruence.
    + unfold log in *. rewrite D1. rewrite <- D0 in O1, B1.
      assert (Hone : forall e, time e = clock s ->
                bounded (clock s) (Distributor.events (distributor w0) ++ [e])).
      { intros e He.
        apply (ordered_grow _ _ _ (fun _ => True) [e] O1 B1 (Qle_refl _)).
        apply stamped_one; auto. }
      destruct Hb as [_ _ _ _ _ HE | _ _ _ _ _ _ HE | _ _ _ _ _ _ HE | l _ _ _ _ _ _ _ HE];
        rewrite HE; try exact B1; apply Hone; unfold clock; cbn; congruence.
Qed.

Lemma steps_logs_in_order V s s' : steps V s s' -> logs_in_order s -> logs_in_order s'.
Proof.
  induction 1 as [| s1 s2 s3 _ IH Hstep]; intros Hs; [exact Hs |].
  eapply step_logs_in_order; [exact Hstep | apply IH; exact Hs].
Qed.

Lemma step_logs_grow V s s' :
  step V s s' ->
  exists l c, log s' = log s ++ l /\ censor_log s' = censor_log s ++ c.
Proof.
  intros H. apply step_effect in H.
  destruct H as [_ _ _ _ [l [E _]] [c [F _]] _ | p w0 _ [N0 L0 D0] [N1 L1 D1] _ Hcl].
  - exists l, c. auto.
  - pose proof (notify_block_blocking p w0) as Hb.
    unfold log. rewrite D1, <- D0, Hcl.
    destruct Hb as [_ _ _ _ _ HE | _ _ _ _ _ _ HE | _ _ _ _ _ _ HE | l _ _ _ _ _ _ _ HE];
      rewrite HE;
      [ exists [miss_event p w0] | exists [] | exists [death_event p w0]
      | exists [block_event p l w0] ];
      exists []; rewrite ?app_nil_r; auto.
Qed.

Lemma steps_logs_grow V s s' :
  steps V s s' ->
  exists l c, log s' = log s ++ l /\ censor_log s' = censor_log s ++ c.
Proof.
  induction 1 as [| s1 s2 s3 _ [l [c [E F]]] Hstep].
  - exists [], []. rewrite !app_nil_r. auto.
  - destruct (step_logs_grow _ _ _ Hstep) as [l' [c' [E' F']]].
    exists (l ++ l'), (c ++ c'). rewrite E', F', E, F, !app_assoc. auto.
Qed.

(** ** Depletion *)

Lemma count_action_app a l l' :
  count_action a (l ++ l') = count_action a l + count_action a l'.
Proof. unfold count_action. rewrite filter_app, length_app. reflexivity. Qed.

Lemma count_stamped t ok a l :
  stamped t ok l -> (forall x, ok x -> action_eqb x a = false) -> count_action a l = 0.
Proof.
  intros Hs Hok. induction Hs as [| e l [_ He] _ IH]; [reflexivity |].
  unfold count_action in *. cbn. rewrite (Hok _ He). exact IH.
Qed.

Lemma exposure_not_death x : exposure x -> action_eqb x PROXY_DEATH = false.
Proof. intros ->. reflexivity. Qed.

Lemma enumeration_not_death x : enumeration x -> action_eqb x PROXY_DEATH = false.
Proof. intros [-> | ->]; reflexivity. Qed.

Lemma list_remove_last p l : list_remove p l = Some [] -> l = [p].
Proof.
  destruct l as [| y l]; cbn; [discriminate |].
  destruct (Nat.eqb_spec p y) as [E | N].
  - intros H. inversion H. subst. reflexivity.
  - destruct (list_remove p l); discriminate.
Qed.

Lemma start_depletion seed rate n b : 0 < n -> depletion_invariant (start seed rate n b).
Proof.
  intros Hn. unfold depletion_invariant, active, log, censor_log. cbn.
  rewrite bootstrap_proxies_seq.
  split; [reflexivity |]. split; [reflexivity |].
  destruct n; [lia | discriminate].
Qed.

Lemma step_depletion V s s' :
  step V s s' -> depletion_invariant s ->
  depletion_invariant s' /\
  (active s = [] -> active s' = [] /\ log s' = log s /\ censor_log s' = censor_log s).
Proof.
  intros H [Ic [Ia Id]]. apply step_effect in H.
  destruct H as [_ _ A _ [l [E [S Hl]]] [c [F [U Hc]]] Hrun
                | p w0 Hrun [N0 L0 D0] [N1 L1 D1] Hexit Hcl].
  - split.
    + unfold depletion_invariant. rewrite A, E, F, !count_action_app.
      rewrite (count_stamped _ _ _ _ S exposure_not_death).
      rewrite (count_stamped _ _ _ _ U enumeration_not_death).
      split; [lia |]. split; [intros Hne; rewrite (Ia Hne); reflexivity |].
      intros Hempty. destruct (Id Hempty) as [Hdead Hrec]. split.
      * destruct (censor_running s'); [rewrite (Hrun eq_refl) in Hdead; discriminate |].
        reflexivity.
      * unfold death_recorded in *. rewrite E, (Hl Hempty), app_nil_r. exact Hrec.
    + intros Hempty. rewrite A, E, F, (Hl Hempty), (Hc Hempty), !app_nil_r. auto.
  - assert (Hne : active s <> []).
    { intros Hempty. destruct (Id Hempty) as [Hdead _]. congruence. }
    split; [| intros; contradiction].
    pose proof (notify_block_blocking p w0) as Hb.
    specialize (Ia Hne).
    unfold depletion_invariant, death_recorded, active, log in *.
    rewrite Hcl, D1. rewrite <- D0 in Ia, Hne. clear Id.
    split; [exact Ic |].
    destruct Hb as [_ _ HP _ _ HE | _ _ _ HP _ _ HE | Hnb Hr Hx HP _ _ HE
                   | l _ _ Hl _ HP _ _ HE]; rewrite HP.
    + split; [| intros; contradiction].
      intros _. rewrite HE, count_action_app, Ia. reflexivity.
    + split; [| intros; contradiction].
      intros _. rewrite HE. exact Ia.
    + split; [intros Hc; contradiction |].
      intros _. split; [exact (Hexit Hx) |].
      exists (Distributor.events (distributor w0)), p, w0.
      rewrite HE. repeat split; auto using list_remove_last.
    + split; [| intros; contradiction].
      intros _. rewrite HE, count_action_app, Ia. reflexivity.
Qed.

Lemma steps_depletion V s s' :
  steps V s s' -> depletion_invariant s ->
  depletion_invariant s' /\
  (active s = [] -> active s' = [] /\ log s' = log s /\ censor_log s' = censor_log s).
Proof.
  induction 1 as [| s1 s2 s3 _ IH Hstep]; intros Hs; [auto |].
  destruct (IH Hs) as [I2 K2].
  destruct (step_depletion _ _ _ Hstep I2) as [I3 K3].
  split; [exact I3 |].
  intros Hempty. destruct (K2 Hempty) as [A2 [E2 F2]].
  destruct (K3 A2) as [A3 [E3 F3]].
  repeat split; congruence.
Qed.

(** C9: in a run with at least one proxy at the start, once the active
    list is empty the log of the Distributor ends with a PROXY_DEATH
    event of health 0, recorded by the call of [notify_block] that took
    the last active proxy and ended by [env.exit()]; it is the only
    PROXY_DEATH of the two logs; and no later step adds an event to
    either log. *)
Theorem depletion_records_one_death V seed client_arrival_rate num_proxies censor_bootstrap s :
  reachable V seed client_arrival_rate num_proxies censor_bootstrap s ->
  0 < num_proxies ->
  active s = [] ->
  count_action PROXY_DEATH (run_result s) = 1 /\
  (exists l e,
     log s = l ++ [e] /\ act e = PROXY_DEATH /\ system_health e = PyInt 0 /\
     exists p w0,
       Distributor.proxies (distributor w0) = [p] /\
       fst (notify_block p w0) = Exit /\
       Distributor.events (distributor (snd (notify_block p w0))) = l ++ [e]) /\
  (forall s', steps V s s' -> log s' = log s /\ censor_log s' = censor_log s).
Proof.
  intros Hreach Hn Hempty.
  destruct (steps_depletion _ _ _ Hreach (start_depletion seed client_arrival_rate _ censor_bootstrap Hn))
    as [[Ic [Ia Id]] _].
  destruct (Id Hempty) as [_ [l [p [w0 [E [C [P [B [X L]]]]]]]]].
  split; [| split].
  - unfold run_result. fold (log s). fold (censor_log s).
    rewrite count_action_app, Ic, E, count_action_app, C. reflexivity.
  - exists l, (death_event p w0). repeat split; auto.
    exists p, w0. rewrite <- E. auto.
  - intros s' Hsteps.
    destruct (steps_depletion _ _ _ Hsteps (conj Ic (conj Ia Id))) as [_ K].
    destruct (K Hempty) as [_ [E' F']]. auto.
Qed.

(** ** Runs at work *)

Ltac q_le := unfold Qle; cbn; lia.

Lemma sole_arrival : step 2 sole0 sole1.
Proof. apply (@step_arrival 2 sole0 _ eq_refl). reflexivity. Qed.

Lemma sole_clock : step 2 sole1 sole2.
Proof. apply (@step_clock 2 sole1 1%Q). q_le. Qed.

Lemma sole_block : step 2 sole2 sole3.
Proof. apply (@step_block 2 sole2); [reflexivity | vm_compute; discriminate]. Qed.

Lemma sole_reachable : reachable 2 zeros 1%Q 1 0%Q sole3.
Proof.
  unfold reachable. fold sole0.
  eapply steps_step; [| exact sole_block].
  eapply steps_step; [| exact sole_clock].
  eapply steps_step; [| exact sole_arrival].
  apply steps_refl.
Qed.

Lemma outnumbered_block : step 2 outnumbered0 outnumbered1.
Proof. apply (@step_block 2 outnumbered0); [reflexivity | vm_compute; discriminate]. Qed.

Example sole_proxy_first_block seed rate b :
  let w := world_of (start seed rate 1 b) in
  fst (notify_block 0 w) = Exit /\
  map act (Distributor.events (distributor (snd (notify_block 0 w)))) = [PROXY_DEATH].
Proof. split; reflexivity. Qed.

Example outnumbered_raises_panic : level outnumbered0 = 0 /\ level outnumbered1 = 1.
Proof. split; reflexivity. Qed.

Lemma assign_default_shorter_queue_witness :
  let w := world_with [0; 1] [] three_five 0 (draws_of [1; 0]) in
  In (first_drawn w) [0; 1] /\ In (second_drawn w) [0; 1] /\
  exists p,
    assign 2 (mkClient 0 false) w = (Return p, served 2 p (mkClient 0 false) w) /\
    (queue_length w (first_drawn w) < queue_length w (second_drawn w) ->
     p = first_drawn w) /\
    (queue_length w (second_drawn w) < queue_length w (first_drawn w) ->
     p = second_drawn w) /\
    (queue_length w (first_drawn w) = queue_length w (second_drawn w) ->
     p = first_drawn w).
Proof.
  intros w.
  apply (assign_default_shorter_queue 2 (mkClient 0 false) w);
    [reflexivity | discriminate].
Defined.

Lemma draws_agree_from_third i :
  i <> 0 -> i <> 1 -> draws_of [0; 0; 1] i = draws_of [1; 1; 1] i.
Proof.
  intros H0 H1. destruct i as [| [| [| i]]]; try contradiction; reflexivity.
Qed.

Lemma assign_panic_draws_witness :
  let w := world_with [0; 1; 2; 3] [] loaded_last 1 (draws_of [1; 1; 1]) in
  fst (assign 2 (mkClient 0 false) (set_random (mkRng (draws_of [0; 0; 1]) 0) w)) =
  fst (assign 2 (mkClient 0 false) w) /\
  fst (assign 2 (mkClient 0 false) w) = Return 1 /\
  pos (random (snd (assign 2 (mkClient 0 false) w))) = 3.
Proof.
  intros w.
  apply (assign_panic_draws 2 (mkClient 0 false) w (draws_of [0; 0; 1]));
    [cbn; lia | discriminate | discriminate | exact draws_agree_from_third].
Defined.

Lemma panic_level_only_grows_at_block_witness :
  level outnumbered0 <= level outnumbered1 /\
  (level outnumbered1 = level outnumbered0 \/ raised_by_block outnumbered0 outnumbered1).
Proof.
  split.
  - apply (proj1 (panic_level_only_grows_at_block 2 outnumbered0 outnumbered1)).
    eapply steps_step; [apply steps_refl | exact outnumbered_block].
  - apply (proj2 (panic_level_only_grows_at_block 2 outnumbered0 outnumbered1)).
    exact outnumbered_block.
Defined.

Lemma active_and_blocked_disjoint_witness :
  (forall p, ~ (In p (active sole3) /\ In p (blocked_list sole3))) /\
  (forall s' p, steps 2 sole3 s' -> In p (blocked_list sole3) ->
                In p (blocked_list s') /\ ~ In p (active s')).
Proof.
  exact (active_and_blocked_disjoint 2 zeros 1%Q 1 0%Q sole3 sole_reachable).
Defined.

Lemma notify_block_already_blocked_witness :
  let w := world_with [0; 1] [2] loaded_second 0 zeros in
  notify_block 2 w = (Return tt, record_miss 2 w) /\
  Distributor.events (distributor (snd (notify_block 2 w))) =
  [create_event 0%Q MISS_PROXY_BLOCK [0; 1] [2] 2 (PyFloat 0x1.0aaaaaaaaaaabp+6%float)] /\
  (exists q, float_value 0x1.0aaaaaaaaaaabp+6%float = Some q /\
             (Qabs (q - (200 # 3)) <= health_tolerance)%Q) /\
  map act (Distributor.events (distributor (snd (notify_block 0 (snd (notify_block 0 w))))))
  = [PROXY_BLOCK; MISS_PROXY_BLOCK].
Proof.
  intros w.
  destruct (proj1 (notify_block_already_blocked 2 w)) as [H1 [_ [H2 [_ [_ [_ H3]]]]]];
    [cbn; auto |].
  split; [exact H1 |]. split; [exact H2 |]. split.
  - destruct H3 as [q [Hq Hle]]; [unfold health_checked; cbn; lia |].
    exists q. split; [exact Hq |].
    assert (E : (200 # 3 == health_formula 2 1)%Q) by reflexivity.
    rewrite E. exact Hle.
  - destruct (proj2 (notify_block_already_blocked 0 w)) as [e [_ [_ [_ [_ [H _]]]]]].
    + cbn. auto.
    + cbn. intros [H | []]. discriminate H.
    + reflexivity.
Defined.

Lemma depletion_records_one_death_witness :
  count_action PROXY_DEATH (run_result sole3) = 1 /\
  (exists l e,
     log sole3 = l ++ [e] /\ act e = PROXY_DEATH /\ system_health e = PyInt 0 /\
     exists p w0,
       Distributor.proxies (distributor w0) = [p] /\
       fst (notify_block p w0) = Exit /\
       Distributor.events (distributor (snd (notify_block p w0))) = l ++ [e]) /\
  (forall s', steps 2 sole3 s' -> log s' = log sole3 /\ censor_log s' = censor_log sole3).
Proof.
  apply (depletion_records_one_death 2 zeros 1%Q 1 0%Q sole3 sole_reachable);
    [lia | reflexivity].
Defined.

(** * Further properties *)

(** ** Assignment, all cases *)

Lemma assign_empty_run V c w :
  Distributor.proxies (distributor w) = [] -> assign V c w = (Exit, w).
Proof.
  intros H. unfold assign, bind, gets. rewrite H. reflexivity.
Qed.

Lemma assign_zero_divisor_run c w :
  0 < panic_level w ->
  Distributor.proxies (distributor w) <> [] ->
  assign 0 c w = (Raise ZeroDivisionError, set_random (skip 2 (random w)) w).
Proof.
  intros Hp Hne.
  pose proof (length_pos_of_nonempty _ Hne) as Hlen.
  unfold assign.
  unfold gets at 1. unfold bind at 1.
  unfold gets at 1. unfold bind at 1.
  destruct (Nat.eqb_spec (length (Distributor.proxies (distributor w))) 0) as [E | _];
    [lia |].
  unfold ret at 1. unfold bind at 1.
  rewrite (bind_return _ _ _ _ _ _ _ (randint_index _ w Hlen)).
  rewrite (bind_return _ _ _ _ _ _ _ (randint_index _ (set_random (skip 1 (random w)) w) Hlen)).
  rewrite (bind_return _ _ _ _ _ _ _ (getitem_nth _ _ _ (mod_index _ _ Hlen))).
  rewrite (bind_return _ _ _ _ _ _ _ (getitem_nth _ _ _ (mod_index _ _ Hlen))).
  unfold gets at 1. unfold bind at 1.
  unfold gets at 1. unfold bind at 1.
  cbn [panic_level set_random queue].
  destruct (Nat.ltb_spec 0 (panic_level w)) as [_ | H]; [| lia].
  reflexivity.
Qed.

Lemma shorter_of_two_active w :
  Distributor.proxies (distributor w) <> [] ->
  In (shorter_of_two w) (Distributor.proxies (distributor w)).
Proof.
  intros Hne. pose proof (length_pos_of_nonempty _ Hne) as Hlen.
  unfold shorter_of_two.
  destruct (_ <? _); apply nth_In_proxies, mod_index, Hlen.
Qed.

Lemma victim_drawn_active V w :
  0 < victim_size V w -> In (victim_drawn V w) (Distributor.proxies (distributor w)).
Proof.
  intros Hvs. apply nth_In_proxies.
  pose proof (victim_size_le V w).
  pose proof (mod_index (tape (random w) (S (S (pos (random w))))) _ Hvs). lia.
Qed.

(** The ways [assign] ends. *)
Lemma assign_cases V c w :
  (Distributor.proxies (distributor w) = [] /\ assign V c w = (Exit, w)) \/
  (0 < panic_level w /\ V = 0 /\
   assign V c w = (Raise ZeroDivisionError, set_random (skip 2 (random w)) w)) \/
  (0 < panic_level w /\ victim_size V w = 0 /\
   In (nth 0 (Distributor.proxies (distributor w)) 0) (Distributor.proxies (distributor w)) /\
   assign V c w = (Return (nth 0 (Distributor.proxies (distributor w)) 0),
                   set_random (skip 2 (random w)) w)) \/
  (exists k p, (k = 2 \/ k = 3) /\ In p (Distributor.proxies (distributor w)) /\
               assign V c w = (Return p, served k p c w)).
Proof.
  destruct (Distributor.proxies (distributor w)) as [| x l] eqn:E.
  - left. split; [reflexivity |]. apply assign_empty_run. exact E.
  - assert (Hne : Distributor.proxies (distributor w) <> []) by (rewrite E; discriminate).
    right. rewrite <- E.
    destruct (Nat.eq_dec (panic_level w) 0) as [Hp | Hp].
    + right. right. exists 2, (shorter_of_two w).
      split; [left; reflexivity |].
      split; [apply shorter_of_two_active; exact Hne |].
      apply assign_default_run; assumption.
    + assert (Hpos : 0 < panic_level w) by lia.
      destruct (Nat.eq_dec V 0) as [HV | HV].
      * left. subst V. repeat split; auto. apply assign_zero_divisor_run; assumption.
      * destruct (Nat.eq_dec (victim_size V w) 0) as [Hz | Hz].
        -- right. left. repeat split; auto.
           ++ apply nth_In_proxies. apply length_pos_of_nonempty. exact Hne.
           ++ apply assign_panic_few_run; assumption.
        -- right. right. exists 3, (victim_drawn V w).
           split; [right; reflexivity |].
           split; [apply victim_drawn_active; lia |].
           apply assign_panic_victims_run; [assumption | assumption | lia].
Qed.

Lemma assign_return_active V c w p w' :
  assign V c w = (Return p, w') -> In p (Distributor.proxies (distributor w)).
Proof.
  intros H.
  destruct (assign_cases V c w)
    as [[_ E] | [[_ [_ E]] | [[_ [_ [Hin E]]] | [k [q [_ [Hin E]]]]]]];
    rewrite E in H; inversion H; subst; assumption.
Qed.

(** X1: on a list of active proxies that is not empty, in default mode
    or with a [VICTIM_SET] that is not zero, [assign] returns, and the
    proxy it returns is one of the active list. *)
Theorem assign_returns_active_proxy V c w :
  Distributor.proxies (distributor w) <> [] ->
  panic_level w = 0 \/ V <> 0 ->
  exists p, fst (assign V c w) = Return p /\
            In p (Distributor.proxies (distributor w)).
Proof.
  intros Hne Hmode.
  destruct (assign_cases V c w)
    as [[E _] | [[Hp [HV _]] | [[_ [_ [Hin E]]] | [k [q [_ [Hin E]]]]]]].
  - contradiction.
  - destruct Hmode; [lia | contradiction].
  - eexists. rewrite E. split; [reflexivity | exact Hin].
  - exists q. rewrite E. split; [reflexivity | exact Hin].
Qed.

(** X2: whatever way [assign] ends, it leaves the clock, the panic level,
    the Distributor, the Censor and the queues as they were; it reads at
    most three cells of the stream, and it hands at most one process to
    the scheduler, the service of the proxy it returns. *)
Theorem assign_writes_stream_and_processes V c w :
  only_stream w (snd (assign V c w)) /\
  tape (random (snd (assign V c w))) = tape (random w) /\
  pos (random w) <= pos (random (snd (assign V c w))) <= 3 + pos (random w) /\
  (env_processes (snd (assign V c w)) = env_processes w \/
   exists p, fst (assign V c w) = Return p /\
             env_processes (snd (assign V c w)) = env_processes w ++ [(p, c)]).
Proof.
  split; [apply assign_only_stream |].
  destruct (assign_cases V c w)
    as [[_ E] | [[_ [_ E]] | [[_ [_ [_ E]]] | [k [q [Hk [_ E]]]]]]]; rewrite E; cbn.
  - repeat split; auto; lia.
  - repeat split; auto; lia.
  - repeat split; auto; lia.
  - repeat split; try (destruct Hk; subst k; lia).
    right. exists q. auto.
Qed.

(** X3: [VICTIM_SET = 0] is harmless in default mode, where the divisor
    is not read; under panic the call raises ZeroDivisionError after its
    two draws, and no service is started. *)
Theorem assign_zero_victim_set c w :
  Distributor.proxies (distributor w) <> [] ->
  (panic_level w = 0 -> exists p, fst (assign 0 c w) = Return p) /\
  (0 < panic_level w ->
   fst (assign 0 c w) = Raise ZeroDivisionError /\
   env_processes (snd (assign 0 c w)) = env_processes w /\
   pos (random (snd (assign 0 c w))) = 2 + pos (random w)).
Proof.
  intros Hne. split.
  - intros Hp. rewrite (assign_default_run 0 c w Hp Hne). eexists. reflexivity.
  - intros Hp. rewrite (assign_zero_divisor_run c w Hp Hne). repeat split.
Qed.

(** ** Enumeration and arrival *)

Lemma enumerate_run p w : enumerate p w = (Return tt, enumerated p w).
Proof.
  unfold enumerate, enumerated, enumerate_event, known_to_censor.
  unfold bind, gets, upd_censor, modify, ret.
  destruct (contains p (Censor.proxies (censor w)));
    destruct (contains p (Censor.blocked (censor w))); reflexivity.
Qed.

Lemma known_to_censor_In p w :
  known_to_censor p w = true <->
  In p (Censor.proxies (censor w)) \/ In p (Censor.blocked (censor w)).
Proof.
  unfold known_to_censor. rewrite orb_true_iff, !contains_In. tauto.
Qed.

(** X4: [enumerate] always returns and records one event of health 0
    about the proxy, stamped with the clock.  A proxy in neither list of
    the censor goes to the end of the known list under ENUMERATE_PROXY;
    a proxy in one of them leaves both lists alone under
    MISS_ENUMERATE_PROXY; the blocked list is never written; a known
    list without duplicates stays so; and a second call in a row is
    always a miss. *)
Theorem enumerate_learns_once p w :
  NoDup (Censor.proxies (censor w)) ->
  let w1 := snd (enumerate p w) in
  fst (enumerate p w) = Return tt /\
  Censor.blocked (censor w1) = Censor.blocked (censor w) /\
  NoDup (Censor.proxies (censor w1)) /\
  (exists e, Censor.events (censor w1) = Censor.events (censor w) ++ [e] /\
             subject_proxy e = p /\ system_health e = PyInt 0 /\ time e = env_now w /\
             active_proxy_ids e = Censor.proxies (censor w1)) /\
  (~ In p (Censor.proxies (censor w)) -> ~ In p (Censor.blocked (censor w)) ->
   Censor.proxies (censor w1) = Censor.proxies (censor w) ++ [p] /\
   map act (Censor.events (censor w1)) =
   map act (Censor.events (censor w)) ++ [ENUMERATE_PROXY]) /\
  (In p (Censor.proxies (censor w)) \/ In p (Censor.blocked (censor w)) ->
   Censor.proxies (censor w1) = Censor.proxies (censor w) /\
   map act (Censor.events (censor w1)) =
   map act (Censor.events (censor w)) ++ [MISS_ENUMERATE_PROXY]) /\
  Censor.proxies (censor (snd (enumerate p w1))) = Censor.proxies (censor w1) /\
  map act (Censor.events (censor (snd (enumerate p w1)))) =
  map act (Censor.events (censor w1)) ++ [MISS_ENUMERATE_PROXY].
Proof.
  intros Hnd w1. subst w1. rewrite !enumerate_run. cbn [fst snd].
  assert (Hk1 : known_to_censor p (enumerated p w) = true).
  { apply known_to_censor_In. unfold enumerated. cbn.
    destruct (known_to_censor p w) eqn:Hk.
    - apply known_to_censor_In in Hk. exact Hk.
    - left. apply in_or_app. right. left. reflexivity. }
  split; [reflexivity |]. split; [reflexivity |]. split.
  { unfold enumerated. cbn. destruct (known_to_censor p w) eqn:Hk; [exact Hnd |].
    apply NoDup_app; [exact Hnd | repeat constructor; intros [] |].
    intros x Hx [E | []]. subst x.
    assert (known_to_censor p w = true) by (apply known_to_censor_In; auto).
    congruence. }
  split.
  { exists (enumerate_event p w). unfold enumerated, enumerate_event. cbn.
    destruct (known_to_censor p w); repeat split. }
  split.
  { intros H1 H2.
    assert (Hk : known_to_censor p w = false).
    { destruct (known_to_censor p w) eqn:Hk; [| reflexivity].
      apply known_to_censor_In in Hk. tauto. }
    unfold enumerated, enumerate_event. cbn. rewrite Hk.
    split; [reflexivity |]. rewrite map_app. reflexivity. }
  split.
  { intros H. apply known_to_censor_In in H.
    unfold enumerated, enumerate_event. cbn. rewrite H.
    split; [reflexivity |]. rewrite map_app. reflexivity. }
  remember (enumerated p w) as w1 eqn:Hw1. clear Hw1.
  unfold enumerated, enumerate_event. cbn. rewrite Hk1.
  split; [reflexivity |]. rewrite map_app. reflexivity.
Qed.

Lemma choice_bool_run w : choice_bool w = (Return (next_malicious w), after_choice w).
Proof.
  unfold choice_bool.
  rewrite (bind_return _ _ _ _ _ _ _ (randint_index 2 w (Nat.lt_0_succ 1))).
  reflexivity.
Qed.

Lemma assign_returns V c w :
  Distributor.proxies (distributor w) <> [] ->
  panic_level w = 0 \/ V <> 0 ->
  exists p w2, assign V c w = (Return p, w2) /\
               In p (Distributor.proxies (distributor w)) /\ only_stream w w2.
Proof.
  intros Hne Hmode.
  pose proof (assign_only_stream V c w) as Hs.
  destruct (assign_cases V c w)
    as [[E _] | [[Hp [HV _]] | [[_ [_ [Hin E]]] | [k [q [_ [Hin E]]]]]]].
  - contradiction.
  - destruct Hmode; [lia | contradiction].
  - rewrite E in Hs. eauto.
  - rewrite E in Hs. eauto.
Qed.

Lemma client_arrival_run V name w p w2 :
  assign V (mkClient name (next_malicious w)) (after_choice w) = (Return p, w2) ->
  client_arrival V name w =
  if next_malicious w then enumerate p w2
  else if contains p (Censor.proxies (censor w2))
       then add_event (create_event (env_now w) EXPOSE_CLIENT
                                    (Distributor.proxies (distributor w2))
                                    (Distributor.blocked (distributor w2)) p (PyInt 0)) w2
       else (Return tt, w2).
Proof.
  intros E. unfold client_arrival.
  unfold gets at 1. unfold bind at 1.
  rewrite (bind_return _ _ _ _ _ _ _ (choice_bool_run w)).
  rewrite (bind_return _ _ _ _ _ _ _ E).
  destruct (next_malicious w); [reflexivity |].
  unfold gets at 1. unfold bind at 1.
  destruct (contains p (Censor.proxies (censor w2))); reflexivity.
Qed.

(** X5: a client that arrives while a proxy is active (in default mode,
    or with [VICTIM_SET] not zero) is given an active proxy, and the call
    returns.  A malicious client has the censor enumerate that proxy and
    leaves the log of the Distributor alone; an honest client leaves the
    censor alone and adds one EXPOSE_CLIENT event to the log of the
    Distributor exactly when the proxy is in the known list of the
    censor.  The two lists and the panic level of the Distributor
    stay. *)
Theorem client_arrival_reports V name w :
  Distributor.proxies (distributor w) <> [] ->
  panic_level w = 0 \/ V <> 0 ->
  let w' := snd (client_arrival V name w) in
  exists p,
    fst (assign V (mkClient name (next_malicious w)) (after_choice w)) = Return p /\
    In p (Distributor.proxies (distributor w)) /\
    fst (client_arrival V name w) = Return tt /\
    Distributor.proxies (distributor w') = Distributor.proxies (distributor w) /\
    Distributor.blocked (distributor w') = Distributor.blocked (distributor w) /\
    panic_level w' = panic_level w /\
    (next_malicious w = true ->
     censor w' = censor (enumerated p w) /\
     Distributor.events (distributor w') = Distributor.events (distributor w)) /\
    (next_malicious w = false ->
     censor w' = censor w /\
     Distributor.events (distributor w') =
     Distributor.events (distributor w) ++
       (if contains p (Censor.proxies (censor w)) then [expose_event p w] else [])).
Proof.
  intros Hne Hmode w'. subst w'.
  assert (Hne1 : Distributor.proxies (distributor (after_choice w)) <> []) by exact Hne.
  assert (Hmode1 : panic_level (after_choice w) = 0 \/ V <> 0) by exact Hmode.
  destruct (assign_returns V (mkClient name (next_malicious w)) _ Hne1 Hmode1)
    as [p [w2 [E [Hin [N L D C Q F]]]]].
  cbn in N, L, D, C.
  exists p. rewrite E. split; [reflexivity |]. split; [exact Hin |].
  rewrite (client_arrival_run V name w p w2 E).
  destruct (next_malicious w).
  - rewrite enumerate_run. cbn [fst snd].
    unfold enumerated, enumerate_event, known_to_censor. cbn.
    rewrite C, D, L, N. repeat split; auto; discriminate.
  - rewrite C. destruct (contains p (Censor.proxies (censor w))).
    + unfold add_event, upd_distributor, modify, expose_event. cbn.
      rewrite C, D, L. repeat split; auto; discriminate.
    + cbn. rewrite C, D, L, app_nil_r. repeat split; auto; discriminate.
Qed.

(** X6: a client that arrives when no proxy is active draws its flag and
    then [assign] ends the process by [env.exit()]: nothing is logged,
    the censor is not called and no service is started. *)
Theorem client_arrival_without_proxies V name w :
  Distributor.proxies (distributor w) = [] ->
  client_arrival V name w = (Exit, after_choice w).
Proof.
  intros H. unfold client_arrival.
  unfold gets at 1. unfold bind at 1.
  rewrite (bind_return _ _ _ _ _ _ _ (choice_bool_run w)).
  apply bind_exit. apply assign_empty_run. exact H.
Qed.

(** ** Block notification, the other cases *)

(** X7: [notify_block] on a proxy that is in neither list of the
    Distributor raises ValueError out of [remove], after it has appended
    the proxy to the blocked list: no event is recorded, the active list
    and the panic level stay, and the next call on the same proxy is a
    MISS_PROXY_BLOCK. *)
Theorem notify_block_unknown_proxy p w :
  ~ In p (Distributor.proxies (distributor w)) ->
  ~ In p (Distributor.blocked (distributor w)) ->
  let w1 := snd (notify_block p w) in
  fst (notify_block p w) = Raise ValueError /\
  Distributor.proxies (distributor w1) = Distributor.proxies (distributor w) /\
  Distributor.blocked (distributor w1) = Distributor.blocked (distributor w) ++ [p] /\
  Distributor.events (distributor w1) = Distributor.events (distributor w) /\
  panic_level w1 = panic_level w /\
  notify_block p w1 = (Return tt, record_miss p w1).
Proof.
  intros Ha Hb w1.
  assert (E : notify_block p w =
              (Raise ValueError,
               with_lists (Distributor.proxies (distributor w))
                          (Distributor.blocked (distributor w) ++ [p])
                          (Distributor.events (distributor w)) w)).
  { rewrite notify_block_cases. unfold notify_block_outcome.
    apply contains_not_In in Hb. rewrite Hb.
    destruct (list_remove p (Distributor.proxies (distributor w))) as [l |] eqn:Hr;
      [| reflexivity].
    destruct (list_remove_Some _ _ _ Hr) as [Hin _]. contradiction. }
  subst w1. rewrite E. cbn [fst snd].
  repeat split.
  rewrite notify_block_cases. unfold notify_block_outcome.
  assert (Hc : contains p (Distributor.blocked (distributor
                 (with_lists (Distributor.proxies (distributor w))
                             (Distributor.blocked (distributor w) ++ [p])
                             (Distributor.events (distributor w)) w))) = true).
  { apply contains_In. cbn. apply in_or_app. right. left. reflexivity. }
  rewrite Hc. reflexivity.
Qed.

(** X8: [notify_block] on an active proxy that is not blocked takes one
    proxy from the active list and puts it at the end of the blocked
    list, so the two lengths keep their sum; it raises the panic level,
    by one, exactly when an active proxy is left and the blocked ones
    now outnumber the active ones, and it ends by [env.exit()] exactly
    when no active proxy is left. *)
Theorem notify_block_moves_one p w :
  In p (Distributor.proxies (distributor w)) ->
  ~ In p (Distributor.blocked (distributor w)) ->
  let w1 := snd (notify_block p w) in
  let left_active := Distributor.proxies (distributor w1) in
  let now_blocked := Distributor.blocked (distributor w1) in
  list_remove p (Distributor.proxies (distributor w)) = Some left_active /\
  now_blocked = Distributor.blocked (distributor w) ++ [p] /\
  length left_active + length now_blocked =
  length (Distributor.proxies (distributor w)) + length (Distributor.blocked (distributor w)) /\
  (fst (notify_block p w) = Exit <-> left_active = []) /\
  (fst (notify_block p w) = Return tt <-> left_active <> []) /\
  (panic_level w1 = S (panic_level w) <->
   left_active <> [] /\ length left_active < length now_blocked) /\
  (panic_level w1 = panic_level w \/ panic_level w1 = S (panic_level w)).
Proof.
  intros Ha Hb w1 left_active now_blocked.
  subst left_active now_blocked w1.
  rewrite notify_block_cases. unfold notify_block_outcome.
  apply contains_not_In in Hb. rewrite Hb.
  destruct (list_remove_In p _ Ha) as [r Hr]. rewrite Hr.
  destruct (list_remove_Some _ _ _ Hr) as [_ [Hlen _]].
  destruct r as [| x r]; cbn [fst snd distributor with_lists set_distributor
    set_panic_level Distributor.proxies Distributor.blocked panic_level].
  - rewrite length_app. cbn [length] in *.
    repeat split; try reflexivity; try lia; try discriminate; try tauto.
  - rewrite length_app. cbn [length] in *.
    destruct (Nat.ltb_spec (S (length r)) (length (Distributor.blocked (distributor w)) + 1))
      as [Hlt | Hge];
      repeat split; try reflexivity; try lia; try discriminate; auto;
      try (intros; discriminate).
Qed.

(** X9: the bootstrap loop gives the Distributor [num_proxies] proxies,
    all different, in the order of their creation. *)
Theorem bootstrap_creates_distinct_proxies num_proxies :
  length (bootstrap_proxies num_proxies) = num_proxies /\
  NoDup (bootstrap_proxies num_proxies) /\
  (forall i, i < num_proxies -> nth_error (bootstrap_proxies num_proxies) i = Some i) /\
  (forall p, In p (bootstrap_proxies num_proxies) <-> p < num_proxies).
Proof.
  rewrite bootstrap_proxies_seq.
  split; [apply length_seq |]. split; [apply seq_NoDup |]. split.
  - intros i Hi. rewrite nth_error_nth' with (d := 0) by (rewrite length_seq; exact Hi).
    rewrite seq_nth by exact Hi. reflexivity.
  - intros p. rewrite in_seq. lia.
Qed.

(** ** The turn of the censor *)

Lemma insert_desc_In key x l y : In y (insert_desc key x l) <-> y = x \/ In y l.
Proof.
  induction l as [| z l IH]; cbn [insert_desc].
  - cbn. intuition.
  - destruct (key x <? key z).
    + cbn [In]. rewrite IH. intuition.
    + cbn [In]. intuition.
Qed.

Lemma sorted_desc_In key l y : In y (sorted_desc key l) <-> In y l.
Proof.
  induction l as [| x l IH]; [cbn; tauto |].
  change (sorted_desc key (x :: l)) with (insert_desc key x (sorted_desc key l)).
  rewrite insert_desc_In, IH. cbn. intuition.
Qed.

Lemma insert_desc_NoDup key x l : NoDup l -> ~ In x l -> NoDup (insert_desc key x l).
Proof.
  induction l as [| z l IH]; cbn [insert_desc]; intros Hnd Hx.
  - constructor; [intros [] | constructor].
  - destruct (key x <? key z).
    + inversion Hnd; subst. constructor.
      * rewrite insert_desc_In. intros [E | Hz]; [subst; apply Hx; left; reflexivity |].
        contradiction.
      * apply IH; [assumption | intros H; apply Hx; right; exact H].
    + constructor; assumption.
Qed.

Lemma sorted_desc_NoDup key l : NoDup l -> NoDup (sorted_desc key l).
Proof.
  induction 1 as [| x l Hx Hnd IH]; [constructor |].
  change (sorted_desc key (x :: l)) with (insert_desc key x (sorted_desc key l)).
  apply insert_desc_NoDup; [exact IH | rewrite sorted_desc_In; exact Hx].
Qed.

Lemma sorted_desc_nonempty key l : l <> [] -> sorted_desc key l <> [].
Proof.
  intros Hne Hs. destruct l as [| x l]; [congruence |].
  assert (H : In x (sorted_desc key (x :: l))) by (apply sorted_desc_In; left; reflexivity).
  rewrite Hs in H. exact H.
Qed.

Lemma sorted_desc_head key l :
  l <> [] -> first_most_loaded key l (hd 0 (sorted_desc key l)).
Proof.
  induction l as [| x l IH]; [congruence |]. intros _.
  destruct l as [| y l].
  - cbn. exists [], []. repeat split; intros z [].
  - assert (Hne : y :: l <> []) by discriminate.
    specialize (IH Hne). pose proof (sorted_desc_nonempty key _ Hne) as Hs.
    change (sorted_desc key (x :: y :: l))
      with (insert_desc key x (sorted_desc key (y :: l))).
    destruct (sorted_desc key (y :: l)) as [| m rest]; [congruence |].
    cbn [hd] in IH. destruct IH as [before [after [E [Hb Ha]]]].
    cbn [insert_desc]. destruct (Nat.ltb_spec (key x) (key m)) as [Hlt | Hge]; cbn [hd].
    + exists (x :: before), after. rewrite E. repeat split; auto.
      intros z [Ez | Hz]; [subst; exact Hlt | auto].
    + exists [], (y :: l). repeat split; [intros z [] |].
      intros z Hz. rewrite E in Hz. apply in_app_or in Hz.
      destruct Hz as [Hz | [Ez | Hz]].
      * specialize (Hb z Hz). lia.
      * subst. exact Hge.
      * specialize (Ha z Hz). lia.
Qed.

Lemma block_turn_cases w : block_turn w = block_turn_outcome w.
Proof.
  unfold block_turn_outcome.
  cbv beta iota zeta delta
    [block_turn proxy_block bind gets upd_censor modify ret getitem raise].
  destruct (0 <? length (Censor.proxies (censor w))) eqn:Hlen;
    [| apply sleep_blocking_rate].
  cbn [censor set_censor Censor.proxies].
  assert (Hne : Censor.proxies (censor w) <> []).
  { destruct (Censor.proxies (censor w)); [discriminate | discriminate]. }
  pose proof (sorted_desc_nonempty (queue_length w) _ Hne) as Hs.
  unfold block_ready. unfold block_target.
  change (fun p : proxy => length (queue w p)) with (queue_length w).
  destruct (sorted_desc (queue_length w) (Censor.proxies (censor w))) as [| m rest] eqn:Es;
    [congruence |].
  cbn [nth_error hd].
  set (ready :=
    set_flag (fun x : proxy => if x =? m then true else flag w x)
      (set_censor
         {| Censor.proxies := m :: rest;
            Censor.blocked := Censor.blocked (censor w);
            Censor.events := Censor.events (censor w);
            Censor.bootstrap := Censor.bootstrap (censor w) |} w)).
  repeat match goal with
  | |- context [notify_block m ?w0] =>
      lazymatch w0 with
      | ready => fail
      | _ => change w0 with ready
      end
  end.
  clearbody ready.
  destruct (notify_block m ready) as [[[] | | e] w1]; try reflexivity.
  destruct (list_remove m (Censor.proxies (censor w1)));
    rewrite ?sleep_blocking_rate; reflexivity.
Qed.

Lemma notify_block_flag p w :
  flag (snd (notify_block p w)) = flag w /\ random (snd (notify_block p w)) = random w.
Proof.
  rewrite notify_block_cases. unfold notify_block_outcome.
  destruct (contains p (Distributor.blocked (distributor w))); [split; reflexivity |].
  destruct (list_remove p (Distributor.proxies (distributor w))) as [[| x l] |];
    split; reflexivity.
Qed.

Lemma notify_block_blocks p w :
  In p (Distributor.blocked (distributor (snd (notify_block p w)))).
Proof.
  destruct (notify_block_blocking p w)
    as [H _ _ HB _ _ | _ _ _ _ HB _ _ | _ _ _ _ HB _ _ | l _ _ _ _ _ HB _ _];
    rewrite HB; auto using in_or_app, in_eq.
Qed.

(** X10: when the censor knows a proxy, its turn blocks the first proxy
    of its known list among those with the longest queue: after the
    turn that proxy carries the blocked flag and is in the blocked list
    of the Distributor, however the turn ends. *)
Theorem censor_blocks_first_most_loaded w :
  Censor.proxies (censor w) <> [] ->
  let p := block_target w in
  first_most_loaded (queue_length w) (Censor.proxies (censor w)) p /\
  flag (snd (block_turn w)) p = true /\
  In p (Distributor.blocked (distributor (snd (block_turn w)))).
Proof.
  intros Hne p. split; [apply sorted_desc_head; exact Hne |].
  rewrite block_turn_cases. unfold block_turn_outcome.
  destruct (Censor.proxies (censor w)) as [| x l] eqn:E; [congruence |].
  cbn [length Nat.ltb Nat.leb]. fold p.
  pose proof (notify_block_flag p (block_ready w)) as [Hf _].
  pose proof (notify_block_blocks p (block_ready w)) as Hb.
  assert (Hready : flag (block_ready w) p = true).
  { unfold block_ready. cbn. fold p. rewrite Nat.eqb_refl. reflexivity. }
  destruct (notify_block p (block_ready w)) as [[[] | | e] w1]; cbn [snd] in *.
  - destruct (list_remove p (Censor.proxies (censor w1))); cbn;
      rewrite Hf; auto.
  - rewrite Hf. auto.
  - rewrite Hf. auto.
Qed.

Lemma block_target_known w :
  Censor.proxies (censor w) <> [] -> In (block_target w) (Censor.proxies (censor w)).
Proof.
  intros Hne. destruct (sorted_desc_head (queue_length w) _ Hne) as [b [a [E _]]].
  fold (block_target w) in E. rewrite E. apply in_or_app. right. left. reflexivity.
Qed.

(** The turn of the censor on a known list whose proxies are all active
    and not blocked. *)
Lemma block_turn_known w :
  Censor.proxies (censor w) <> [] ->
  (forall q, In q (Censor.proxies (censor w)) -> In q (Distributor.proxies (distributor w))) ->
  (forall q, In q (Distributor.proxies (distributor w)) ->
             ~ In q (Distributor.blocked (distributor w))) ->
  let p := block_target w in
  let w' := snd (block_turn w) in
  exists l,
    list_remove p (Distributor.proxies (distributor w)) = Some l /\
    Distributor.proxies (distributor w') = l /\
    Distributor.blocked (distributor w') = Distributor.blocked (distributor w) ++ [p] /\
    (exists e, Distributor.events (distributor w') = Distributor.events (distributor w) ++ [e] /\
               subject_proxy e = p /\ act e = block_action l /\ time e = env_now w) /\
    panic_level w' =
      level_after_block l (Distributor.blocked (distributor w) ++ [p]) (panic_level w) /\
    env_now w' = env_now w /\
    Censor.events (censor w') = Censor.events (censor w) /\
    (l = [] ->
     fst (block_turn w) = Exit /\
     Censor.blocked (censor w') = Censor.blocked (censor w) /\
     Censor.proxies (censor w') = sorted_desc (queue_length w) (Censor.proxies (censor w))) /\
    (l <> [] ->
     fst (block_turn w) = Return tt /\
     Censor.blocked (censor w') = Censor.blocked (censor w) ++ [p] /\
     list_remove p (sorted_desc (queue_length w) (Censor.proxies (censor w))) =
     Some (Censor.proxies (censor w'))).
Proof.
  intros Hne Hsub Hdis p w'.
  pose proof (block_target_known w Hne) as Hk. fold p in Hk.
  assert (Ha : In p (Distributor.proxies (distributor w))) by auto.
  assert (Hb : contains p (Distributor.blocked (distributor w)) = false)
    by (apply contains_not_In; auto).
  destruct (list_remove_In p _ Ha) as [l Hl].
  assert (Hsorted : In p (sorted_desc (queue_length w) (Censor.proxies (censor w))))
    by (apply sorted_desc_In; exact Hk).
  destruct (list_remove_In p _ Hsorted) as [k Hrem].
  exists l. split; [exact Hl |].
  subst w'. rewrite block_turn_cases. unfold block_turn_outcome.
  assert (Hpos : (0 <? length (Censor.proxies (censor w))) = true).
  { apply Nat.ltb_lt. apply length_pos_of_nonempty. exact Hne. }
  rewrite Hpos. fold p.
  rewrite notify_block_cases. unfold notify_block_outcome.
  change (distributor (block_ready w)) with (distributor w).
  rewrite Hb, Hl.
  destruct l as [| y l].
  - cbn. repeat split; try reflexivity; try congruence.
    eexists. repeat split.
  - match goal with
    | |- context [list_remove p (Censor.proxies (censor ?w1))] =>
        change (Censor.proxies (censor w1))
          with (sorted_desc (queue_length w) (Censor.proxies (censor w)))
    end.
    rewrite Hrem. cbn.
    repeat split; try reflexivity; try congruence; try discriminate.
    eexists. repeat split.
Qed.

(** ** Sound states *)

Lemma list_remove_keeps x l r :
  list_remove x l = Some r -> forall y, In y l -> y <> x -> In y r.
Proof.
  revert r. induction l as [| z l IH]; cbn; intros r H y Hy Hne; [contradiction |].
  destruct (Nat.eqb_spec x z) as [E | N].
  - inversion H; subst. destruct Hy as [E | Hy]; [congruence | exact Hy].
  - destruct (list_remove x l) as [r' |]; [| discriminate].
    inversion H; subst. destruct Hy as [E | Hy]; [left; exact E |].
    right. apply IH; auto.
Qed.

Lemma censor_learns_same w w' : censor w' = censor w -> censor_learns w w'.
Proof. intros H. unfold censor_learns. rewrite H. auto. Qed.

Lemma client_arrival_learns V name w : censor_learns w (snd (client_arrival V name w)).
Proof.
  pose proof (assign_only_stream V (mkClient name (next_malicious w)) (after_choice w)) as Hs.
  destruct (assign V (mkClient name (next_malicious w)) (after_choice w))
    as [[p | | e] w2] eqn:E; cbn [snd] in Hs; destruct Hs as [N L D C Q F];
    cbn in N, L, D, C.
  - rewrite (client_arrival_run V name w p w2 E).
    apply assign_return_active in E. cbn in E.
    destruct (next_malicious w).
    + rewrite enumerate_run. cbn [snd]. unfold censor_learns, enumerated. cbn.
      rewrite C. split; [reflexivity |].
      destruct (known_to_censor p w2) eqn:Hk; [left; reflexivity |].
      right. exists p.
      assert (Hn : ~ (In p (Censor.proxies (censor w2)) \/ In p (Censor.blocked (censor w2)))).
      { intros H. apply known_to_censor_In in H. congruence. }
      rewrite C in Hn. repeat split; auto.
    + rewrite C. destruct (contains p (Censor.proxies (censor w)));
        apply censor_learns_same; cbn; exact C.
  - unfold client_arrival.
    unfold gets at 1. unfold bind at 1.
    rewrite (bind_return _ _ _ _ _ _ _ (choice_bool_run w)).
    rewrite (bind_exit _ _ _ _ _ _ E). apply censor_learns_same. exact C.
  - unfold client_arrival.
    unfold gets at 1. unfold bind at 1.
    rewrite (bind_return _ _ _ _ _ _ _ (choice_bool_run w)).
    rewrite (bind_raise _ _ _ _ _ _ _ E). apply censor_learns_same. exact C.
Qed.

Lemma arrival_turn_learns V rate name w out :
  arrival_turn V rate name w = Some out -> censor_learns w (snd out).
Proof.
  unfold arrival_turn.
  destruct (0 <? length (Distributor.proxies (distributor w))); [| discriminate].
  intros H. inversion H; subst out. clear H.
  pose proof (client_arrival_learns V name w) as Hl.
  unfold bind. destruct (client_arrival V name w) as [[[] | | e] w1]; cbn [snd] in *;
    try exact Hl.
  destruct (sleep_only_stream rate w1) as [_ _ _ C _ _].
  unfold censor_learns in *. rewrite C. exact Hl.
Qed.

Lemma start_sound seed rate n b : sound (start seed rate n b).
Proof.
  split; [apply start_separated |].
  unfold censor_view, known, censor_blocked. cbn.
  split; [constructor |]. split; [intros p [] |].
  split; [intros _ p [] | intros p []].
Qed.

Lemma quiet_of_effect s s' :
  effect s s' -> active s' = active s -> blocked_list s' = blocked_list s ->
  level s' = level s -> (clock s <= clock s')%Q ->
  (exists l, log s' = log s ++ l /\ stamped (clock s') exposure l) ->
  (exists l, censor_log s' = censor_log s ++ l /\ stamped (clock s') enumeration l) ->
  quiet s s'.
Proof. intros. repeat split; assumption. Qed.

Lemma step_sound V s s' : step V s s' -> sound s -> sound s' /\ progress s s'.
Proof.
  intros H [[Hnd Hdis] [Hk [Hkb [Hka Hcb]]]].
  destruct H as [s d Hd | s q k | s out Hrun Hturn | s Hrun Hturn | s Hrun Hboot].
  - split.
    + repeat split; assumption.
    + apply progress_quiet.
      unfold quiet, clock, level, active, blocked_list, log, censor_log. cbn.
      repeat split; try (exists []; rewrite app_nil_r; split; [reflexivity | constructor]).
      lra.
  - split.
    + repeat split; assumption.
    + apply progress_quiet.
      unfold quiet, clock, level, active, blocked_list, log, censor_log. cbn.
      repeat split; try (exists []; rewrite app_nil_r; split; [reflexivity | constructor]).
      apply Qle_refl.
  - destruct (arrival_turn_frame _ _ _ _ _ Hturn) as [Hne [N L P B T [l [E S]] [c [F U]]]].
    destruct (arrival_turn_learns _ _ _ _ _ Hturn) as [HB HP].
    split.
    + unfold sound, separated, censor_view, known, censor_blocked, active, blocked_list
        in *.
      rewrite after_arrival_world, P, B, HB.
      split; [split; assumption |].
      destruct HP as [HP | [p [Hpa [Hpk [Hpb HP]]]]]; rewrite HP.
      * repeat split; auto.
        intros Hr. apply Hka. apply (after_arrival_censor _ _ Hr).
      * split; [| split; [| split]]; auto.
        -- apply NoDup_app; [exact Hk | repeat constructor; intros [] |].
           intros x Hx [Ex | []]. subst x. contradiction.
        -- intros x Hx. apply in_app_or in Hx. destruct Hx as [Hx | [Ex | []]]; auto.
           subst x. exact Hpb.
        -- intros Hr x Hx. apply in_app_or in Hx. destruct Hx as [Hx | [Ex | []]].
           ++ apply Hka; [apply (after_arrival_censor _ _ Hr) | exact Hx].
           ++ subst x. exact Hpa.
    + apply progress_quiet.
      unfold quiet, clock, level, active, blocked_list, log, censor_log.
      rewrite after_arrival_world, N.
      repeat split; auto; try apply Qle_refl;
        try (exists l; split; assumption); try (exists c; split; assumption).
  - split.
    + unfold sound, separated, censor_view, known, censor_blocked, active, blocked_list
        in *. cbn. repeat split; auto.
    + apply progress_quiet.
      unfold quiet, clock, level, active, blocked_list, log, censor_log. cbn.
      repeat split; try (exists []; rewrite app_nil_r; split; [reflexivity | constructor]).
      apply Qle_refl.
  - destruct (Censor.proxies (censor (world_of s))) as [| x0 l0] eqn:Ekn.
    + assert (Hout : block_turn (world_of s) = (Return tt, after_choice (world_of s))).
      { rewrite block_turn_cases. unfold block_turn_outcome. rewrite Ekn. reflexivity. }
      split.
      * unfold sound, separated, censor_view, known, censor_blocked, active, blocked_list
          in *.
        rewrite after_block_world, Hout. cbn. rewrite Ekn in *.
        repeat split; auto.
      * apply progress_quiet.
        unfold quiet, clock, level, active, blocked_list, log, censor_log.
        rewrite after_block_world, Hout. cbn.
        repeat split;
          try (exists []; rewrite app_nil_r; split; [reflexivity | constructor]).
        apply Qle_refl.
    + assert (Hne : Censor.proxies (censor (world_of s)) <> [])
        by (rewrite Ekn; discriminate).
      clear Ekn x0 l0.
      unfold known, censor_blocked, active, blocked_list in *.
      specialize (Hka Hrun).
      destruct (block_turn_known (world_of s) Hne Hka Hdis)
        as [l [Hl [HP [HB [[e [HE [Hsub [Hact Htime]]]] [HL [HN [HCE [Hdeath Hmove]]]]]]]]].
      pose proof (block_target_known _ Hne) as Htk.
      set (p := block_target (world_of s)) in *.
      destruct (list_remove_Some _ _ _ Hl) as [Hin [_ [Hsubl Hndl]]].
      destruct (Hndl Hnd) as [Hnl Hpl].
      split.
      * unfold sound, separated, censor_view, known, censor_blocked, active, blocked_list.
        rewrite after_block_world, HP, HB.
        split.
        { split; [exact Hnl |].
          intros x Hx Hb. apply in_app_or in Hb. destruct Hb as [Hb | [Ex | []]].
          - exact (Hdis x (Hsubl x Hx) Hb).
          - subst x. contradiction. }
        destruct l as [| y l].
        -- destruct (Hdeath eq_refl) as [Hres [HCB HCP]].
           rewrite HCB, HCP.
           split; [apply sorted_desc_NoDup; exact Hk |].
           split; [intros x Hx; apply Hkb; apply sorted_desc_In in Hx; exact Hx |].
           split.
           ++ unfold after_block. rewrite Hres. cbn. discriminate.
           ++ intros x Hx. apply in_or_app. left. apply Hcb. exact Hx.
        -- assert (Hyl : y :: l <> []) by discriminate.
           destruct (Hmove Hyl) as [Hres [HCB Hrem]].
           destruct (list_remove_Some _ _ _ Hrem) as [_ [_ [Hsubk Hndk]]].
           destruct (Hndk (sorted_desc_NoDup _ _ Hk)) as [Hnk Hpk].
           rewrite HCB.
           split; [exact Hnk |].
           split.
           { intros x Hx Hb. apply in_app_or in Hb. destruct Hb as [Hb | [Ex | []]].
             - apply (Hkb x); [apply sorted_desc_In with (key := queue_length (world_of s));
                 apply Hsubk; exact Hx | exact Hb].
             - subst x. contradiction. }
           split.
           { intros _ x Hx.
             assert (Hxk : In x (Censor.proxies (censor (world_of s)))).
             { apply sorted_desc_In with (key := queue_length (world_of s)).
               apply Hsubk. exact Hx. }
             assert (Hxp : x <> p) by (intros Ex; subst x; contradiction).
             specialize (Hka x Hxk).
             exact (list_remove_keeps _ _ _ Hl x Hka Hxp). }
           intros x Hx. apply in_app_or in Hx. destruct Hx as [Hx | [Ex | []]].
           ++ apply in_or_app. left. apply Hcb. exact Hx.
           ++ subst x. apply in_or_app. right. left. reflexivity.
      * apply progress_block with p l e; unfold known, censor_blocked, active,
          blocked_list, log, censor_log, level; rewrite ?after_block_world; auto.
        -- rewrite HB. exact HL.
Qed.

Lemma steps_sound V s s' : steps V s s' -> sound s -> sound s'.
Proof.
  induction 1 as [| s1 s2 s3 _ IH Hstep]; intros Hs; [exact Hs |].
  exact (proj1 (step_sound _ _ _ Hstep (IH Hs))).
Qed.

Lemma reachable_sound V seed rate n b s : reachable V seed rate n b s -> sound s.
Proof. intros H. exact (steps_sound _ _ _ H (start_sound seed rate n b)). Qed.

(** Induction over the states of a run, one sound step at a time. *)
Lemma run_induction V seed rate n b (P : sim -> Prop) :
  P (start seed rate n b) ->
  (forall s s', sound s -> progress s s' -> P s -> P s') ->
  forall s, reachable V seed rate n b s -> P s.
Proof.
  intros H0 Hstep s Hreach. unfold reachable in Hreach.
  remember (start seed rate n b) as s0 eqn:E.
  induction Hreach as [| s1 s2 s3 H12 IH H23]; [exact H0 |].
  assert (Hs2 : sound s2) by (subst s1; exact (reachable_sound _ _ _ _ _ _ H12)).
  exact (Hstep s2 s3 Hs2 (proj2 (step_sound _ _ _ H23 Hs2)) (IH E H0)).
Qed.

Lemma blocked_subjects_app l l' :
  blocked_subjects (l ++ l') = blocked_subjects l ++ blocked_subjects l'.
Proof. unfold blocked_subjects. rewrite filter_app, map_app. reflexivity. Qed.

Lemma blocked_subjects_stamped t ok l :
  stamped t ok l -> (forall a, ok a -> a <> PROXY_BLOCK /\ a <> PROXY_DEATH) ->
  blocked_subjects l = [].
Proof.
  intros Hs Hok. induction Hs as [| e l [_ He] _ IH]; [reflexivity |].
  unfold blocked_subjects in *. cbn. unfold is_block at 1.
  destruct (Hok _ He) as [H1 H2].
  destruct (act e); try congruence; cbn; exact IH.
Qed.

Lemma exposure_not_block a : exposure a -> a <> PROXY_BLOCK /\ a <> PROXY_DEATH.
Proof. intros ->. split; discriminate. Qed.

Lemma stamped_Forall t ok l : stamped t ok l -> Forall (fun e => ok (act e)) l.
Proof. intros H. eapply Forall_impl; [| exact H]. cbn. tauto. Qed.

Lemma start_tally seed rate n b : tally n (start seed rate n b).
Proof.
  unfold tally, active, blocked_list, level, log, censor_log. cbn.
  rewrite bootstrap_proxies_seq, length_seq.
  split; [lia |]. split.
  { intros p. rewrite in_seq. split; [intros [Hp | []]; lia | intros Hp; left; lia]. }
  split; [lia |]. split; [lia |].
  repeat split; constructor.
Qed.

Lemma progress_tally n s s' : sound s -> progress s s' -> tally n s -> tally n s'.
Proof.
  intros [[Hnd Hdis] _] Hp [Hsum [Hmem [Hout [Hlev [Hmiss [Hsub [Hlog Hcen]]]]]]].
  destruct Hp as [[_ [L [A [B [[l [E S]] [c [F U]]]]]]]
                 | p l e Hk Hrun Hl Hnb A B E Hs Hact L F].
  - unfold tally. rewrite L, A, B, E, F.
    rewrite !count_action_app, blocked_subjects_app.
    rewrite (count_stamped _ _ PROXY_BLOCK _ S) by (intros x ->; reflexivity).
    rewrite (count_stamped _ _ MISS_PROXY_BLOCK _ S) by (intros x ->; reflexivity).
    rewrite (blocked_subjects_stamped _ _ _ S exposure_not_block), app_nil_r.
    repeat split; auto; try lia; try (apply Hmem); try (apply Forall_app; split; auto).
    + eapply Forall_impl; [| exact (stamped_Forall _ _ _ S)].
      cbn. intros a Ha [H | H]; rewrite Ha in H; discriminate H.
    + exact (stamped_Forall _ _ _ U).
  - destruct (list_remove_Some _ _ _ Hl) as [Hin [Hlen [Hsubl Hndl]]].
    destruct (Hndl Hnd) as [_ Hpl].
    unfold tally. rewrite L, A, B, E, F, length_app.
    rewrite !count_action_app, blocked_subjects_app, Hsub.
    cbn [length].
    assert (He : blocked_subjects [e] = [p]).
    { unfold blocked_subjects, is_block. cbn. rewrite Hact.
      destruct l; cbn; rewrite Hs; reflexivity. }
    assert (Hm : count_action MISS_PROXY_BLOCK [e] = 0).
    { unfold count_action. cbn. rewrite Hact. destruct l; reflexivity. }
    assert (Hb : count_action PROXY_BLOCK [e] = match l with [] => 0 | _ => 1 end).
    { unfold count_action. cbn. rewrite Hact. destruct l; reflexivity. }
    rewrite He, Hm, Hb.
    split; [lia |]. split.
    { intros x. rewrite <- Hmem. split.
      - intros [Hx | Hx]; [left; auto |].
        apply in_app_or in Hx. destruct Hx as [Hx | [Ex | []]]; [right; exact Hx |].
        subst x. left. exact Hin.
      - intros [Hx | Hx]; [| right; apply in_or_app; left; exact Hx].
        destruct (Nat.eq_dec x p) as [Ex | Nx].
        + subst x. right. apply in_or_app. right. left. reflexivity.
        + left. exact (list_remove_keeps _ _ _ Hl x Hx Nx). }
    split.
    { unfold level_after_block. rewrite length_app. cbn [length].
      destruct l as [| y l]; [cbn; lia |].
      destruct (Nat.ltb_spec (length (y :: l)) (length (blocked_list s) + 1)); lia. }
    split.
    { unfold level_after_block. rewrite length_app. cbn [length].
      destruct l as [| y l]; [lia |].
      destruct (Nat.ltb_spec (length (y :: l)) (length (blocked_list s) + 1)); lia. }
    split; [lia |]. split; [reflexivity |]. split; [| exact Hcen].
    apply Forall_app. split; [exact Hlog |].
    constructor; [| constructor].
    unfold not_enumeration. rewrite Hact. intros [H | H]; destruct l; discriminate H.
Qed.

Lemma reachable_tally V seed rate n b s : reachable V seed rate n b s -> tally n s.
Proof.
  apply (run_induction V seed rate n b (tally n)).
  - apply start_tally.
  - intros s1 s2 Hs Hp Ht. exact (progress_tally n s1 s2 Hs Hp Ht).
Qed.

(** ** What a run keeps *)

(** X11: in every state of a run the known list of the censor has no
    proxy twice and shares none with the blocked list of the censor;
    while the loop of the censor runs every known proxy is active at the
    Distributor; and every proxy the censor has blocked is in the blocked
    list of the Distributor. *)
Theorem censor_keeps_a_consistent_view V seed client_arrival_rate num_proxies censor_bootstrap s :
  reachable V seed client_arrival_rate num_proxies censor_bootstrap s ->
  NoDup (known s) /\
  (forall p, In p (known s) -> ~ In p (censor_blocked s)) /\
  (censor_running s = true -> forall p, In p (known s) -> In p (active s)) /\
  (forall p, In p (censor_blocked s) -> In p (blocked_list s)).
Proof.
  intros H. exact (proj2 (reachable_sound _ _ _ _ _ _ H)).
Qed.

(** X12: in every state of a run each of the [num_proxies] proxies of
    the bootstrap is in the active list or in the blocked list of the
    Distributor, nothing else is, and the two lengths add up to
    [num_proxies]. *)
Theorem proxies_are_active_or_blocked V seed client_arrival_rate num_proxies censor_bootstrap s :
  reachable V seed client_arrival_rate num_proxies censor_bootstrap s ->
  length (active s) + length (blocked_list s) = num_proxies /\
  (forall p, In p (active s) \/ In p (blocked_list s) <-> p < num_proxies).
Proof.
  intros H. destruct (reachable_tally _ _ _ _ _ _ H) as [H1 [H2 _]]. auto.
Qed.

(** X13: in a run, once the panic level is positive the blocked proxies
    outnumber the active ones, so less than half of the proxies of the
    bootstrap are active. *)
Theorem panic_means_outnumbered V seed client_arrival_rate num_proxies censor_bootstrap s :
  reachable V seed client_arrival_rate num_proxies censor_bootstrap s ->
  0 < level s ->
  length (active s) < length (blocked_list s) /\
  2 * length (active s) < num_proxies.
Proof.
  intros H Hl. destruct (reachable_tally _ _ _ _ _ _ H) as [H1 [_ [H3 _]]].
  specialize (H3 Hl). lia.
Qed.

(** X14: a run never records MISS_PROXY_BLOCK: the censor never blocks a
    proxy that the Distributor has already blocked. *)
Theorem run_never_misses_a_block V seed client_arrival_rate num_proxies censor_bootstrap s :
  reachable V seed client_arrival_rate num_proxies censor_bootstrap s ->
  count_action MISS_PROXY_BLOCK (run_result s) = 0.
Proof.
  intros H. destruct (reachable_tally _ _ _ _ _ _ H) as [_ [_ [_ [_ [Hm [_ [_ Hc]]]]]]].
  unfold run_result. fold (log s). fold (censor_log s).
  rewrite count_action_app, Hm. cbn.
  induction Hc as [| e l He _ IH]; [reflexivity |].
  unfold count_action in *. cbn.
  destruct He as [He | He]; rewrite He; exact IH.
Qed.

(** X15: in every state of a run the subjects of the PROXY_BLOCK and
    PROXY_DEATH events of the log of the Distributor, in the order of the
    log, are the blocked list of the Distributor: each blocked proxy has
    one such event, in the order of the blocks. *)
Theorem block_events_name_the_blocked_list V seed client_arrival_rate num_proxies censor_bootstrap s :
  reachable V seed client_arrival_rate num_proxies censor_bootstrap s ->
  blocked_subjects (log s) = blocked_list s.
Proof.
  intros H. destruct (reachable_tally _ _ _ _ _ _ H) as [_ [_ [_ [_ [_ [Hs _]]]]]].
  exact Hs.
Qed.

Lemma count_block_le_subjects l :
  count_action PROXY_BLOCK l <= length (blocked_subjects l).
Proof.
  unfold count_action, blocked_subjects. rewrite length_map.
  induction l as [| e l IH]; [cbn; lia |].
  cbn. unfold is_block at 1. destruct (act e); cbn; lia.
Qed.

(** X16: in every state of a run the panic level is at most the number
    of PROXY_BLOCK events recorded, which is at most the number of
    blocked proxies. *)
Theorem panic_level_bounded_by_blocks V seed client_arrival_rate num_proxies censor_bootstrap s :
  reachable V seed client_arrival_rate num_proxies censor_bootstrap s ->
  level s <= count_action PROXY_BLOCK (log s) /\
  count_action PROXY_BLOCK (log s) <= length (blocked_list s) /\
  length (blocked_list s) <= num_proxies.
Proof.
  intros H.
  destruct (reachable_tally _ _ _ _ _ _ H) as [H1 [_ [_ [H4 [_ [Hs _]]]]]].
  pose proof (count_block_le_subjects (log s)) as Hc. rewrite Hs in Hc. lia.
Qed.

(** X17: in every state of a run the log of the Censor holds only
    ENUMERATE_PROXY and MISS_ENUMERATE_PROXY events, and the log of the
    Distributor holds none of these. *)
Theorem each_log_holds_its_owner_actions V seed client_arrival_rate num_proxies censor_bootstrap s :
  reachable V seed client_arrival_rate num_proxies censor_bootstrap s ->
  Forall (fun e => act e = ENUMERATE_PROXY \/ act e = MISS_ENUMERATE_PROXY) (censor_log s) /\
  Forall (fun e => act e <> ENUMERATE_PROXY /\ act e <> MISS_ENUMERATE_PROXY) (log s).
Proof.
  intros H. destruct (reachable_tally _ _ _ _ _ _ H) as [_ [_ [_ [_ [_ [_ [Hl Hc]]]]]]].
  split; [exact Hc |].
  eapply Forall_impl; [| exact Hl]. cbn. unfold not_enumeration, enumeration. tauto.
Qed.

Lemma time_ordered_app l1 l2 :
  time_ordered (l1 ++ l2) <->
  time_ordered l1 /\ time_ordered l2 /\
  forall d c, In d l1 -> In c l2 -> (time d <= time c)%Q.
Proof.
  unfold time_ordered. induction l1 as [| e l1 IH]; cbn.
  - split.
    + intros H. split; [constructor |]. split; [exact H |]. intros d c [].
    + intros [_ [H _]]. exact H.
  - split.
    + intros H. inversion H as [| e0 l0 Hs Hall]; subst.
      apply IH in Hs. destruct Hs as [H1 [H2 H12]].
      apply Forall_app in Hall. destruct Hall as [Ha1 Ha2].
      split; [constructor; assumption |]. split; [exact H2 |].
      intros d c [Hd | Hd] Hc.
      * subst d. rewrite Forall_forall in Ha2. apply Ha2. exact Hc.
      * apply H12; assumption.
    + intros [H1 [H2 H12]]. inversion H1 as [| e0 l0 Hs Hall]; subst.
      constructor.
      * apply IH. split; [exact Hs |]. split; [exact H2 |].
        intros d c Hd Hc. apply H12; [right; exact Hd | exact Hc].
      * apply Forall_app. split; [exact Hall |].
        apply Forall_forall. intros c Hc. apply H12; [left; reflexivity | exact Hc].
Qed.

(** C2, as the code has it: [run] gives the Distributor and the Censor
    an empty log each; in every state that a run reaches the log of the
    Distributor holds EXPOSE_CLIENT, PROXY_BLOCK, MISS_PROXY_BLOCK and
    PROXY_DEATH events only and the log of the Censor ENUMERATE_PROXY
    and MISS_ENUMERATE_PROXY events only; each of the two logs is in the
    order of non-decreasing time and from then on only grows at its end;
    what [run] returns is the log of the Distributor followed by the log
    of the Censor, which is in the order of time exactly when no event
    of the Distributor is later than an event of the Censor. *)
Theorem each_log_in_time_order V seed client_arrival_rate num_proxies censor_bootstrap s :
  reachable V seed client_arrival_rate num_proxies censor_bootstrap s ->
  (log (start seed client_arrival_rate num_proxies censor_bootstrap) = [] /\
   censor_log (start seed client_arrival_rate num_proxies censor_bootstrap) = []) /\
  Forall (fun e => distributor_action (act e)) (log s) /\
  Forall (fun e => enumeration (act e)) (censor_log s) /\
  time_ordered (log s) /\ time_ordered (censor_log s) /\
  run_result s = log s ++ censor_log s /\
  (time_ordered (run_result s) <->
   forall d c, In d (log s) -> In c (censor_log s) -> (time d <= time c)%Q) /\
  (forall s', steps V s s' ->
     exists l c, log s' = log s ++ l /\ censor_log s' = censor_log s ++ c).
Proof.
  intros Hreach.
  destruct (steps_logs_in_order _ _ _ Hreach (start_logs_in_order _ _ _ _))
    as [O1 [_ [O2 _]]].
  destruct (reachable_tally _ _ _ _ _ _ Hreach) as [_ [_ [_ [_ [_ [_ [Hl Hc]]]]]]].
  split; [split; reflexivity |].
  split.
  { eapply Forall_impl; [| exact Hl]. intros e He.
    unfold not_enumeration, enumeration in He. unfold distributor_action.
    destruct (act e); auto; exfalso; apply He; auto. }
  split; [exact Hc |].
  split; [exact O1 |]. split; [exact O2 |]. split; [reflexivity |].
  split.
  - unfold run_result. fold (log s). fold (censor_log s).
    rewrite time_ordered_app. split.
    + intros [_ [_ H]]. exact H.
    + intros H. auto.
  - intros s'. apply steps_logs_grow.
Qed.









(** ** More runs at work *)

Lemma trio_arrival_1 : step 2 trio0 trio1.
Proof.
  assert (E : trio1 =
              after_arrival trio0 ((client_arrival 2 0 ;;; sleep 1%Q) (world_of trio0)))
    by (vm_compute; reflexivity).
  rewrite E. apply (@step_arrival 2 trio0); vm_compute; reflexivity.
Qed.

Lemma trio_block_1 : step 2 trio1 trio2.
Proof.
  assert (E : trio2 = after_block trio1 (block_turn (world_of trio1)))
    by (vm_compute; reflexivity).
  rewrite E. apply (@step_block 2 trio1); vm_compute; [reflexivity | discriminate].
Qed.

Lemma trio_arrival_2 : step 2 trio2 trio3.
Proof.
  assert (E : trio3 =
              after_arrival trio2 ((client_arrival 2 1 ;;; sleep 1%Q) (world_of trio2)))
    by (vm_compute; reflexivity).
  rewrite E. apply (@step_arrival 2 trio2); vm_compute; reflexivity.
Qed.

Lemma trio_block_2 : step 2 trio3 trio4.
Proof.
  assert (E : trio4 = after_block trio3 (block_turn (world_of trio3)))
    by (vm_compute; reflexivity).
  rewrite E. apply (@step_block 2 trio3); vm_compute; [reflexivity | discriminate].
Qed.

Lemma trio3_reachable : reachable 2 zeros 1%Q 3 0%Q trio3.
Proof.
  unfold reachable. change (start zeros 1%Q 3 0%Q) with trio0.
  eapply steps_step; [| exact trio_arrival_2].
  eapply steps_step; [| exact trio_block_1].
  eapply steps_step; [| exact trio_arrival_1].
  apply steps_refl.
Qed.

Lemma trio4_reachable : reachable 2 zeros 1%Q 3 0%Q trio4.
Proof.
  eapply steps_step; [exact trio3_reachable | exact trio_block_2].
Qed.

Example trio_ends_in_panic :
  active trio4 = [2] /\ blocked_list trio4 = [0; 1] /\ level trio4 = 1 /\
  map act (log trio4) = [PROXY_BLOCK; PROXY_BLOCK].
Proof. repeat split. Qed.

Lemma assign_returns_active_proxy_witness :
  exists p, fst (assign 2 (mkClient 0 false) (world_with [0; 1] [] three_five 0 zeros))
            = Return p /\ In p [0; 1].
Proof.
  apply (assign_returns_active_proxy 2 (mkClient 0 false)
           (world_with [0; 1] [] three_five 0 zeros));
    [discriminate | left; reflexivity].
Defined.

Lemma assign_zero_victim_set_witness :
  fst (assign 0 (mkClient 0 false) (world_with [0] [1; 2] (fun _ => 0) 1 zeros))
  = Raise ZeroDivisionError.
Proof.
  apply (assign_zero_victim_set (mkClient 0 false)
           (world_with [0] [1; 2] (fun _ => 0) 1 zeros)); [discriminate | cbn; lia].
Defined.

Lemma enumerate_learns_once_witness :
  fst (enumerate 0 (world_of sole0)) = Return tt.
Proof.
  apply (enumerate_learns_once 0 (world_of sole0)). constructor.
Defined.

Lemma client_arrival_reports_witness :
  exists p,
    fst (assign 2 (mkClient 0 (next_malicious (world_of sole0)))
                (after_choice (world_of sole0))) = Return p /\
    In p (Distributor.proxies (distributor (world_of sole0))) /\
    fst (client_arrival 2 0 (world_of sole0)) = Return tt.
Proof.
  destruct (client_arrival_reports 2 0 (world_of sole0)) as [p [H1 [H2 [H3 _]]]];
    [discriminate | left; reflexivity |].
  exists p. auto.
Defined.

Lemma client_arrival_without_proxies_witness :
  fst (client_arrival 2 0 (world_with [] [0] (fun _ => 0) 0 zeros)) = Exit.
Proof.
  rewrite (client_arrival_without_proxies 2 0 (world_with [] [0] (fun _ => 0) 0 zeros));
    reflexivity.
Defined.

Lemma notify_block_unknown_proxy_witness :
  fst (notify_block 7 (world_with [0; 1] [2] loaded_second 0 zeros)) = Raise ValueError.
Proof.
  apply (notify_block_unknown_proxy 7 (world_with [0; 1] [2] loaded_second 0 zeros));
    cbn; intuition discriminate.
Defined.

Lemma notify_block_moves_one_witness :
  let w := world_with [0; 1] [2] loaded_second 0 zeros in
  panic_level (snd (notify_block 0 w)) = S (panic_level w) <->
  Distributor.proxies (distributor (snd (notify_block 0 w))) <> [] /\
  length (Distributor.proxies (distributor (snd (notify_block 0 w)))) <
  length (Distributor.blocked (distributor (snd (notify_block 0 w)))).
Proof.
  intros w.
  apply (notify_block_moves_one 0 w); cbn; intuition discriminate.
Defined.

Lemma censor_blocks_first_most_loaded_witness :
  In (block_target (world_of outnumbered0))
     (Distributor.blocked (distributor (snd (block_turn (world_of outnumbered0))))).
Proof.
  apply (censor_blocks_first_most_loaded (world_of outnumbered0)). discriminate.
Defined.

Lemma censor_keeps_a_consistent_view_witness : NoDup (known trio4).
Proof.
  exact (proj1 (censor_keeps_a_consistent_view 2 zeros 1%Q 3 0%Q trio4 trio4_reachable)).
Defined.

Lemma proxies_are_active_or_blocked_witness :
  length (active trio4) + length (blocked_list trio4) = 3.
Proof.
  exact (proj1 (proxies_are_active_or_blocked 2 zeros 1%Q 3 0%Q trio4 trio4_reachable)).
Defined.

Lemma panic_means_outnumbered_witness :
  length (active trio4) < length (blocked_list trio4) /\ 2 * length (active trio4) < 3.
Proof.
  apply (panic_means_outnumbered 2 zeros 1%Q 3 0%Q trio4 trio4_reachable).
  vm_compute. lia.
Defined.

Lemma run_never_misses_a_block_witness :
  count_action MISS_PROXY_BLOCK (run_result trio4) = 0.
Proof.
  exact (run_never_misses_a_block 2 zeros 1%Q 3 0%Q trio4 trio4_reachable).
Defined.

Lemma block_events_name_the_blocked_list_witness :
  blocked_subjects (log trio4) = blocked_list trio4.
Proof.
  exact (block_events_name_the_blocked_list 2 zeros 1%Q 3 0%Q trio4 trio4_reachable).
Defined.

Lemma panic_level_bounded_by_blocks_witness :
  level trio4 <= count_action PROXY_BLOCK (log trio4).
Proof.
  exact (proj1 (panic_level_bounded_by_blocks 2 zeros 1%Q 3 0%Q trio4 trio4_reachable)).
Defined.

Lemma each_log_holds_its_owner_actions_witness :
  Forall (fun e => act e = ENUMERATE_PROXY \/ act e = MISS_ENUMERATE_PROXY)
         (censor_log trio4).
Proof.
  exact (proj1 (each_log_holds_its_owner_actions 2 zeros 1%Q 3 0%Q trio4 trio4_reachable)).
Defined.


(** ** The censor comes late *)

Lemma late_arrival : step 2 late0 late1.
Proof.
  assert (E : late1 =
              after_arrival late0 ((client_arrival 2 0 ;;; sleep 1%Q) (world_of late0)))
    by (vm_compute; reflexivity).
  rewrite E. apply (@step_arrival 2 late0); vm_compute; reflexivity.
Qed.

Lemma late_clock_1 : step 2 late1 late2.
Proof.
  assert (E : late2 = set_world (advance_clock 1%Q (world_of late1)) late1)
    by (vm_compute; reflexivity).
  rewrite E. apply (@step_clock 2 late1 1%Q). q_le.
Qed.

Lemma late_block : step 2 late2 late3.
Proof.
  assert (E : late3 = after_block late2 (block_turn (world_of late2)))
    by (vm_compute; reflexivity).
  rewrite E. apply (@step_block 2 late2); vm_compute; [reflexivity | discriminate].
Qed.

Lemma late_clock_2 : step 2 late3 late4.
Proof.
  assert (E : late4 = set_world (advance_clock 3%Q (world_of late3)) late3)
    by (vm_compute; reflexivity).
  rewrite E. apply (@step_clock 2 late3 3%Q). q_le.
Qed.

Lemma late_arrival_end : step 2 late4 late5.
Proof.
  assert (E : late5 =
              mkSim (world_of late4) (interval late4) (counter late4) false
                    (censor_running late4))
    by (vm_compute; reflexivity).
  rewrite E. apply (@step_arrival_end 2 late4); vm_compute; reflexivity.
Qed.

Lemma late_reachable : reachable 2 late_tape 1%Q 1 1%Q late5.
Proof.
  unfold reachable. change (start late_tape 1%Q 1 1%Q) with late0.
  eapply steps_step; [| exact late_arrival_end].
  eapply steps_step; [| exact late_clock_2].
  eapply steps_step; [| exact late_block].
  eapply steps_step; [| exact late_clock_1].
  eapply steps_step; [| exact late_arrival].
  apply steps_refl.
Qed.

(** C2, as the claim states it, fails on [run(seed, 1, 1, 1, trace)] for
    a seed whose first client is malicious and whose first delay is 4.
    The client arrives at time 0 and the Censor records ENUMERATE_PROXY;
    the timeout of the generator is 4 and that of the bootstrap is 1, so
    the censor is the next to run, at time 1, and the Distributor
    records PROXY_DEATH; the generator ends at time 4.  Both processes
    have ended; the two logs are two lists with different events, and
    what [run] returns has the PROXY_DEATH of time 1 before the
    ENUMERATE_PROXY of time 0. *)
Lemma run_result_not_in_time_order :
  reachable 2 late_tape 1%Q 1 1%Q late5 /\
  (exists t, fst (expovariate (1 / 1) (snd (client_arrival 2 0 (world_of late0))))
             = Return t /\ (t == 4)%Q) /\
  Censor.bootstrap (censor (world_of late0)) = 1%Q /\
  map clock [late0; late1; late2; late3; late4; late5] = [0; 0; 1; 1; 4; 4]%Q /\
  clients_running late5 = false /\ censor_running late5 = false /\
  log late5 <> censor_log late5 /\
  map (fun e => (act e, time e)) (run_result late5)
  = [(PROXY_DEATH, 1%Q); (ENUMERATE_PROXY, 0%Q)] /\
  ~ time_ordered (run_result late5).
Proof.
  split; [exact late_reachable |].
  split; [eexists; split; [vm_compute; reflexivity | reflexivity] |].
  split; [reflexivity |]. split; [reflexivity |].
  split; [reflexivity |]. split; [reflexivity |].
  split; [intros H; vm_compute in H; discriminate H |].
  split; [reflexivity |].
  intros H. vm_compute in H.
  inversion H as [| e l _ Hall]. subst.
  inversion Hall as [| e' l' Hle _]. subst.
  apply Hle. reflexivity.
Qed.

(** ** Two blocks *)

Lemma busy_arrival_1 : step 2 busy0 busy1.
Proof.
  assert (E : busy1 =
              after_arrival busy0 ((client_arrival 2 0 ;;; sleep 1%Q) (world_of busy0)))
    by (vm_compute; reflexivity).
  rewrite E. apply (@step_arrival 2 busy0); vm_compute; reflexivity.
Qed.

Lemma busy_clock_1 : step 2 busy1 busy2.
Proof.
  assert (E : busy2 = set_world (advance_clock 1%Q (world_of busy1)) busy1)
    by (vm_compute; reflexivity).
  rewrite E. apply (@step_clock 2 busy1 1%Q). q_le.
Qed.

Lemma busy_block_1 : step 2 busy2 busy3.
Proof.
  assert (E : busy3 = after_block busy2 (block_turn (world_of busy2)))
    by (vm_compute; reflexivity).
  rewrite E. apply (@step_block 2 busy2); vm_compute; [reflexivity | discriminate].
Qed.

Lemma busy_clock_2 : step 2 busy3 busy4.
Proof.
  assert (E : busy4 = set_world (advance_clock (1 # 2)%Q (world_of busy3)) busy3)
    by (vm_compute; reflexivity).
  rewrite E. apply (@step_clock 2 busy3 (1 # 2)%Q). q_le.
Qed.

Lemma busy_arrival_2 : step 2 busy4 busy5.
Proof.
  assert (E : busy5 =
              after_arrival busy4 ((client_arrival 2 1 ;;; sleep 1%Q) (world_of busy4)))
    by (vm_compute; reflexivity).
  rewrite E. apply (@step_arrival 2 busy4); vm_compute; reflexivity.
Qed.

Lemma busy_clock_3 : step 2 busy5 busy6.
Proof.
  assert (E : busy6 = set_world (advance_clock (1 # 2)%Q (world_of busy5)) busy5)
    by (vm_compute; reflexivity).
  rewrite E. apply (@step_clock 2 busy5 (1 # 2)%Q). q_le.
Qed.

Lemma busy_block_2 : step 2 busy6 busy7.
Proof.
  assert (E : busy7 = after_block busy6 (block_turn (world_of busy6)))
    by (vm_compute; reflexivity).
  rewrite E. apply (@step_block 2 busy6); vm_compute; [reflexivity | discriminate].
Qed.

Lemma busy_reachable : reachable 2 busy_tape 1%Q 3 1%Q busy7.
Proof.
  unfold reachable. change (start busy_tape 1%Q 3 1%Q) with busy0.
  eapply steps_step; [| exact busy_block_2].
  eapply steps_step; [| exact busy_clock_3].
  eapply steps_step; [| exact busy_arrival_2].
  eapply steps_step; [| exact busy_clock_2].
  eapply steps_step; [| exact busy_block_1].
  eapply steps_step; [| exact busy_clock_1].
  eapply steps_step; [| exact busy_arrival_1].
  apply steps_refl.
Qed.

Example busy_logs :
  map (fun e => (act e, time e)) (log busy7)
  = [(PROXY_BLOCK, 1%Q); (PROXY_BLOCK, (8 # 4)%Q)] /\
  map (fun e => (act e, time e)) (censor_log busy7)
  = [(ENUMERATE_PROXY, 0%Q); (ENUMERATE_PROXY, (3 # 2)%Q)].
Proof. split; reflexivity. Qed.

Lemma each_log_in_time_order_witness :
  (log (start busy_tape 1%Q 3 1%Q) = [] /\ censor_log (start busy_tape 1%Q 3 1%Q) = []) /\
  Forall (fun e => distributor_action (act e)) (log busy7) /\
  Forall (fun e => enumeration (act e)) (censor_log busy7) /\
  time_ordered (log busy7) /\ time_ordered (censor_log busy7) /\
  run_result busy7 = log busy7 ++ censor_log busy7 /\
  (time_ordered (run_result busy7) <->
   forall d c, In d (log busy7) -> In c (censor_log busy7) -> (time d <= time c)%Q) /\
  (forall s', steps 2 busy7 s' ->
     exists l c, log s' = log busy7 ++ l /\ censor_log s' = censor_log busy7 ++ c).
Proof.
  exact (each_log_in_time_order 2 busy_tape 1%Q 3 1%Q busy7 busy_reachable).
Defined.

